(** * node-leveldb: the [DB] binding (src/DB.cc)

    A shallow embedding of the asynchronous binding between the JavaScript
    host and the LevelDB engine.  The binding object owns one engine handle
    ([self->db]); every asynchronous method allocates a parameter bundle,
    hands it to the thread pool ([eio_custom]) together with an execute
    function (worker thread) and an after function (caller thread).

    The engine (LevelDB) and the host (V8, libeio, libev) are outside the
    repository: the engine is an interface ([LevelDB], an abstract class in
    C++ as well), the host is the small set of operations the binding uses. *)

From Stdlib Require Import NArith ZArith.
From stdpp Require Import gmap strings list fin_maps.
From Stdlib.Strings Require Byte.

(** ** Bytes and text *)

Abbreviation byte := Byte.byte.
Abbreviation bytes := (list Byte.byte).

(** A JavaScript string, as its sequence of Unicode code points. *)
Abbreviation JsString := (list N).

Module Utf8.

Local Open Scope N_scope.

Definition byte_of_N (n : N) : byte :=
  match Byte.of_N (n mod 256) with
  | Some b => b
  | None => Byte.x00
  end.

(** [String::Utf8Value]: the UTF-8 bytes of one code point. *)
Definition encode_cp (c : N) : bytes :=
  if c <? 128 then [byte_of_N c]
  else if c <? 2048 then
    [byte_of_N (192 + c / 64); byte_of_N (128 + c mod 64)]
  else if c <? 65536 then
    [byte_of_N (224 + c / 4096); byte_of_N (128 + (c / 64) mod 64);
     byte_of_N (128 + c mod 64)]
  else
    [byte_of_N (240 + (c / 262144) mod 8); byte_of_N (128 + (c / 4096) mod 64);
     byte_of_N (128 + (c / 64) mod 64); byte_of_N (128 + c mod 64)].

Definition encode (s : JsString) : bytes := concat (map encode_cp s).

Definition is_cont (b : byte) : bool :=
  let n := Byte.to_N b in (128 <=? n) && (n <? 192).

Definition payload (b : byte) : N := Byte.to_N b mod 64.

Definition replacement : N := 65533.

(** [String::New(data, length)]: the text of a UTF-8 byte sequence.  A byte
    that starts no well-formed sequence decodes to U+FFFD. *)
Fixpoint decode (bs : bytes) : JsString :=
  match bs with
  | [] => []
  | b0 :: r0 =>
    let n0 := Byte.to_N b0 in
    if n0 <? 128 then n0 :: decode r0
    else if (194 <=? n0) && (n0 <? 224) then
      match r0 with
      | b1 :: r1 =>
        if is_cont b1 then ((n0 - 192) * 64 + payload b1) :: decode r1
        else replacement :: decode r0
      | [] => [replacement]
      end
    else if (224 <=? n0) && (n0 <? 240) then
      match r0 with
      | b1 :: (b2 :: r2) as r1 =>
        let c := (n0 - 224) * 4096 + payload b1 * 64 + payload b2 in
        if is_cont b1 && is_cont b2 && (2048 <=? c)
           && negb ((55296 <=? c) && (c <? 57344))
        then c :: decode r2
        else replacement :: decode r0
      | _ => replacement :: decode r0
      end
    else if (240 <=? n0) && (n0 <? 245) then
      match r0 with
      | b1 :: (b2 :: (b3 :: r3)) =>
        let c := (n0 - 240) * 262144 + payload b1 * 4096
                 + payload b2 * 64 + payload b3 in
        if is_cont b1 && is_cont b2 && is_cont b3
           && (65536 <=? c) && (c <? 1114112)
        then c :: decode r3
        else replacement :: decode r0
      | _ => replacement :: decode r0
      end
    else replacement :: decode r0
  end.

(** A Unicode scalar value: a code point outside the surrogate range. *)
Definition scalar (c : N) : Prop :=
  c < 55296 \/ (57344 <= c /\ c < 1114112).

End Utf8.

(** ** JavaScript values crossing the binding *)

Inductive ExcKind := Error | TypeError.

Inductive JsValue :=
| JsUndefined
| JsNull
| JsBool (b : bool)
| JsNum (z : Z)
| JsStr (s : JsString)
| JsBuf (b : bytes)
| JsPlain (props : list (string * bool))
| JsBatchObj (l : nat)
| JsFun (f : nat)
| JsExc (k : ExcKind) (msg : string)
| JsDB
| JsIterator.

Definition IsString (v : JsValue) : bool :=
  match v with JsStr _ => true | _ => false end.

Definition Buffer_HasInstance (v : JsValue) : bool :=
  match v with JsBuf _ => true | _ => false end.

Definition IsFunction (v : JsValue) : bool :=
  match v with JsFun _ => true | _ => false end.

Definition IsObject (v : JsValue) : bool :=
  match v with
  | JsBuf _ | JsPlain _ | JsBatchObj _ | JsFun _ | JsExc _ _ | JsDB | JsIterator => true
  | _ => false
  end.

(** [args[i]]: reading past [args.Length()] yields [undefined]. *)
Definition arg (args : list JsValue) (i : nat) : JsValue :=
  nth i args JsUndefined.

(** The bytes a JavaScript value stands for when it is used as a key or as
    a value. *)
Definition bytes_of (v : JsValue) : bytes :=
  match v with
  | JsStr s => Utf8.encode s
  | JsBuf b => b
  | _ => []
  end.

(** ** The engine interface *)

Inductive Code := kNotFound | kCorruption | kNotSupported | kInvalidArgument | kIOError.

(** [leveldb::Status]; the default-constructed status is [StOk]. *)
Inductive Status :=
| StOk
| StErr (c : Code) (msg : string).

Definition ok (s : Status) : bool :=
  match s with StOk => true | _ => false end.

Definition IsNotFound (s : Status) : bool :=
  match s with StErr kNotFound _ => true | _ => false end.

(** Modelled from the spec: helpers.h ([JsToOptions], [JsToWriteOptions],
    [JsToReadOptions]) is not among the sources; the options object is
    passed through verbatim to the engine. *)
Inductive Opts :=
| DefaultOpts
| OptsOf (props : list (string * bool)).

Definition JsToOptions (v : JsValue) : Opts :=
  match v with JsPlain props => OptsOf props | _ => OptsOf [] end.
Definition JsToWriteOptions := JsToOptions.
Definition JsToReadOptions := JsToOptions.

Inductive BatchOp :=
| BPut (k v : bytes)
| BDelete (k : bytes).

Class LevelDB := {
  (** everything the engine keeps outside the binding: files and locks *)
  Env : Type;
  (** a live [leveldb::DB*] *)
  Inst : Type;
  (** [leveldb::DB::Open]: an instance, or a failure status *)
  ldb_Open : Opts -> bytes -> Env -> (Inst + Code * string) * Env;
  (** [delete db] *)
  ldb_delete : Inst -> Env -> Env;
  (** [db->Write(options, &batch)] *)
  ldb_Write : Inst -> Opts -> list BatchOp -> Env -> Status * Env;
  (** [db->Get(options, key, &value)]: the value, or a failure status that
      leaves [value] as it was *)
  ldb_Get : Inst -> Opts -> bytes -> Env -> bytes + Code * string;
  (** a [leveldb::Iterator] *)
  Iter : Type;
  (** [db->NewIterator(options)]: a cursor over what the database holds;
      like [Get] it reads the files and leaves them and the locks alone *)
  ldb_NewIterator : Inst -> Opts -> Env -> Iter;
  (** [status.ToString()] *)
  ToString : Status -> string
}.

(** ** The host: invoking a JavaScript function

    [Function_Call f argv] is [Some e] when the call of function [f] with
    arguments [argv] left the exception [e] pending in the enclosing
    [TryCatch].  The body of a callback is opaque: the calls it makes on the
    binding are calls of the program like any other.  The host also knows
    where the native objects behind its wrapper objects live. *)
Class Host := {
  Function_Call : nat -> list JsValue -> option JsValue;
  (** [GetPointerFromInternalField(0)] of a wrapped object other than a
      [WriteBatch] (the binding object, an iterator, a buffer): the address
      of the native object it wraps *)
  GetPointerFromInternalField : JsValue -> nat
}.

(** ** A reference engine and a reference host

    The engine as its documentation describes it: each path holds an ordered
    map from keys to values; an open database holds the lock of its path. *)

Module Reference.

#[global] Instance byte_eq_dec : EqDecision byte := Byte.byte_eq_dec.
#[global] Instance byte_countable : Countable byte :=
  inj_countable Byte.to_N Byte.of_N Byte.of_to_N.

Record Disk := {
  files : gmap bytes (gmap bytes bytes);
  locked : gset bytes
}.

Definition empty_disk : Disk := {| files := ∅; locked := ∅ |}.

Definition flag (name : string) (o : Opts) : bool :=
  match o with
  | DefaultOpts => false
  | OptsOf props => existsb (fun kv => bool_decide (kv.1 = name) && kv.2) props
  end.

Definition apply_op (s : gmap bytes bytes) (o : BatchOp) : gmap bytes bytes :=
  match o with
  | BPut k v => <[k := v]> s
  | BDelete k => delete k s
  end.

Definition Open (o : Opts) (name : bytes) (d : Disk) : (bytes + Code * string) * Disk :=
  if bool_decide (name ∈ locked d) then
    (inr (kIOError, "lock: already held by process"), d)
  else
    match files d !! name with
    | Some _ =>
      if flag "error_if_exists" o then
        (inr (kInvalidArgument, "exists (error_if_exists is true)"), d)
      else (inl name, {| files := files d; locked := {[name]} ∪ locked d |})
    | None =>
      if flag "create_if_missing" o then
        (inl name, {| files := <[name := ∅]> (files d); locked := {[name]} ∪ locked d |})
      else (inr (kInvalidArgument, "does not exist (create_if_missing is false)"), d)
    end.

Definition Delete (i : bytes) (d : Disk) : Disk :=
  {| files := files d; locked := locked d ∖ {[i]} |}.

Definition Write (i : bytes) (o : Opts) (ops : list BatchOp) (d : Disk) : Status * Disk :=
  match files d !! i with
  | Some s => (StOk, {| files := <[i := foldl apply_op s ops]> (files d); locked := locked d |})
  | None => (StErr kIOError "no such database", d)
  end.

Definition Get (i : bytes) (o : Opts) (k : bytes) (d : Disk) : bytes + Code * string :=
  match files d !! i ≫= (fun s => s !! k) with
  | Some v => inl v
  | None => inr (kNotFound, "")
  end.

Definition NewIterator (i : bytes) (o : Opts) (d : Disk) : list (bytes * bytes) :=
  match files d !! i with
  | Some s => map_to_list s
  | None => []
  end.

Definition code_name (c : Code) : string :=
  match c with
  | kNotFound => "NotFound: "
  | kCorruption => "Corruption: "
  | kNotSupported => "Not implemented: "
  | kInvalidArgument => "Invalid argument: "
  | kIOError => "IO error: "
  end.

Definition status_string (s : Status) : string :=
  match s with
  | StOk => "OK"
  | StErr c m => code_name c +:+ m
  end.

Definition engine : LevelDB := {|
  Env := Disk;
  Inst := bytes;
  ldb_Open := Open;
  ldb_delete := Delete;
  ldb_Write := Write;
  ldb_Get := Get;
  Iter := list (bytes * bytes);
  ldb_NewIterator := NewIterator;
  ToString := status_string
|}.

(** A host in which function 0 throws and every other function returns;
    its native objects live far from the first addresses. *)
Definition thrown : JsValue := JsExc TypeError "callback failed".

Definition host : Host := {|
  Function_Call f argv := if bool_decide (f = 0%nat) then Some thrown else None;
  GetPointerFromInternalField v := 4096%nat
|}.

End Reference.

(** ** Parameter bundles and the state of one binding object *)

(** [WriteBatch] (WriteBatch.h): the engine batch [wb] and the copies of the
    text arguments it points into. *)
Record WriteBatch := {
  wb : list BatchOp;
  wb_strings : list bytes
}.

(** The operation-specific part of [OpenParams], [Params] (close),
    [WriteParams] and [ReadParams]. *)
Inductive OpParams :=
| POpen (name : bytes) (options : Opts)
| PClose
| PWrite (writeBatch : nat) (options : Opts) (disposeWriteBatch : bool)
| PRead (key : bytes) (options : Opts) (strings : option (list bytes)) (result : bytes).

(** [DB::Params]: the persistent callback handle (empty when the caller
    passed no function), the outcome slot and the specific part. *)
Record Params := {
  callback : option nat;
  status : Status;
  op : OpParams
}.

Inductive Thread := Caller | Worker.

Inductive Ev :=
| EvNewParams (p : nat)
| EvSubmit (p : nat)
| EvExecute (p : nat)
| EvCall (p : nat) (f : nat) (argv : list JsValue)
| EvFatal (p : nat) (e : JsValue)
| EvDeleteBatch (b : nat)
| EvDeleteParams (p : nat).

Section Binding.
Context `{LevelDB} `{Host}.

Record World := {
  db : option Inst;                 (* self->db *)
  env : Env;                        (* the engine's side of the world *)
  refs : nat;                       (* ObjectWrap::refs_ of self *)
  ev_refs : nat;                    (* ev_ref count held on the default loop *)
  params : gmap nat Params;         (* live parameter bundles, by address *)
  batches : gmap nat WriteBatch;    (* live WriteBatch objects, by address *)
  next_loc : nat;                   (* next fresh address *)
  queue : list nat;                 (* eio requests submitted, not yet executed *)
  done_ : list nat;                 (* executed, waiting for the after function *)
  thread : Thread;                  (* the thread running the current code *)
  trace : list (Thread * Ev)        (* what happened, newest first *)
}.

(** [thread] and [trace] are ghost state: the code writes them and never
    reads them. *)

Definition initial (e : Env) : World :=
  {| db := None; env := e; refs := 0; ev_refs := 0; params := ∅; batches := ∅;
     next_loc := 0; queue := []; done_ := []; thread := Caller; trace := [] |}.

Definition log (e : Ev) (w : World) : World :=
  {| db := db w; env := env w; refs := refs w; ev_refs := ev_refs w;
     params := params w; batches := batches w; next_loc := next_loc w;
     queue := queue w; done_ := done_ w; thread := thread w;
     trace := (thread w, e) :: trace w |}.

Definition on_thread (t : Thread) (w : World) : World :=
  {| db := db w; env := env w; refs := refs w; ev_refs := ev_refs w;
     params := params w; batches := batches w; next_loc := next_loc w;
     queue := queue w; done_ := done_ w; thread := t; trace := trace w |}.

Definition set_engine (d : option Inst) (e : Env) (w : World) : World :=
  {| db := d; env := e; refs := refs w; ev_refs := ev_refs w;
     params := params w; batches := batches w; next_loc := next_loc w;
     queue := queue w; done_ := done_ w; thread := thread w; trace := trace w |}.

Definition set_params (ps : gmap nat Params) (w : World) : World :=
  {| db := db w; env := env w; refs := refs w; ev_refs := ev_refs w;
     params := ps; batches := batches w; next_loc := next_loc w;
     queue := queue w; done_ := done_ w; thread := thread w; trace := trace w |}.

Definition set_batches (bs : gmap nat WriteBatch) (w : World) : World :=
  {| db := db w; env := env w; refs := refs w; ev_refs := ev_refs w;
     params := params w; batches := bs; next_loc := next_loc w;
     queue := queue w; done_ := done_ w; thread := thread w; trace := trace w |}.

Definition set_queues (q d : list nat) (w : World) : World :=
  {| db := db w; env := env w; refs := refs w; ev_refs := ev_refs w;
     params := params w; batches := batches w; next_loc := next_loc w;
     queue := q; done_ := d; thread := thread w; trace := trace w |}.

Definition set_counts (r e n : nat) (w : World) : World :=
  {| db := db w; env := env w; refs := r; ev_refs := e;
     params := params w; batches := batches w; next_loc := n;
     queue := queue w; done_ := done_ w; thread := thread w; trace := trace w |}.

(** *** [DB::Params::Params] and [DB::Params::~Params] *)

(** [new Params(self, cb)]: the bundle is allocated with a
    default-constructed (ok) status, [self->Ref()], [ev_ref]. *)
Definition new_Params (cb : option nat) (o : OpParams) (w : World) : nat * World :=
  let p := next_loc w in
  (p, log (EvNewParams p)
        (set_params (<[p := {| callback := cb; status := StOk; op := o |}]> (params w))
           (set_counts (S (refs w)) (S (ev_refs w)) (S p) w))).

(** [delete params]: [self->Unref()], [ev_unref], the bundle is gone. *)
Definition delete_Params (p : nat) (w : World) : World :=
  log (EvDeleteParams p)
    (set_params (delete p (params w))
       (set_counts (pred (refs w)) (pred (ev_refs w)) (next_loc w) w)).

(** [eio_custom(execute, EIO_PRI_DEFAULT, after, params)] *)
Definition eio_custom (p : nat) (w : World) : World :=
  log (EvSubmit p) (set_queues (queue w ++ [p]) (done_ w) w).

(** [new WriteBatch()] followed by the operations put into it. *)
Definition new_WriteBatch (b : WriteBatch) (w : World) : nat * World :=
  let l := next_loc w in
  (l, set_batches (<[l := b]> (batches w))
        (set_counts (refs w) (ev_refs w) (S l) w)).

Definition delete_WriteBatch (l : nat) (w : World) : World :=
  log (EvDeleteBatch l) (set_batches (delete l (batches w)) w).

(** *** Argument marshalling *)

(** Modelled from the spec: [JsToSlice] (helpers.h) is not among the
    sources.  A text value is transcoded and copied into the owned storage
    [strings] (when there is one); a byte buffer is borrowed as it is; any
    other value gives the empty slice. *)
Definition JsToSlice (v : JsValue) (strings : option (list bytes))
  : bytes * option (list bytes) :=
  match v, strings with
  | JsStr s, Some ss => (Utf8.encode s, Some (ss ++ [Utf8.encode s]))
  | JsBuf b, _ => (b, strings)
  | _, _ => ([], strings)
  end.

Definition is_key (v : JsValue) : bool := IsString v || Buffer_HasInstance v.

(** The block shared by every method: an optional options object at
    [args[pos]] (an object that is not a function), [pos] advanced past it. *)
Definition optional_options (conv : JsValue -> Opts) (args : list JsValue) (pos : nat)
  : Opts * nat :=
  if (pos <? length args)%nat && IsObject (arg args pos) && negb (IsFunction (arg args pos))
  then (conv (arg args pos), S pos)
  else (DefaultOpts, pos).

(** The optional callback at [args[pos]]; no function leaves the handle empty. *)
Definition optional_callback (args : list JsValue) (pos : nat) : option nat :=
  if (pos <? length args)%nat then
    match arg args pos with JsFun f => Some f | _ => None end
  else None.

(** The outcome of a synchronous call made by the JavaScript program:
    a returned value, a new iterator object wrapping an iterator of the
    engine, a thrown exception, or a fault of the process (a failed
    assertion, or undefined behaviour in C++ such as calling through a null
    pointer). *)
Inductive CallResult :=
| Returned (v : JsValue)
| ReturnedIterator (it : Iter)
| Threw (e : JsValue)
| Faulted.

(** [ObjectWrap::Unwrap<T>(object)] (node_object_wrap.h): the pointer in
    the first internal field of the object, cast to [T*] whatever it points
    to; an object with no internal field fails the assertion.  A
    [WriteBatch] object wraps its batch. *)
Definition Unwrap (v : JsValue) : option nat :=
  match v with
  | JsBatchObj l => Some l
  | JsDB | JsIterator | JsBuf _ => Some (GetPointerFromInternalField v)
  | _ => None
  end.

(** The C string at the start of a buffer: the bytes before the first zero
    byte. *)
Fixpoint c_str (s : bytes) : bytes :=
  match s with
  | [] => []
  | b :: rest => if bool_decide (b = Byte.x00) then [] else b :: c_str rest
  end.

Definition not_opened : JsValue := JsExc Error "DB has not been opened".

(** *** Open *)

Definition EIO_BeforeOpen (p : nat) (w : World) : World := eio_custom p w.

(** The name given to the bundle is [*name], the C string of the
    [String::Utf8Value]: the bytes of the text up to its first U+0000. *)
Definition DB_Open (args : list JsValue) (w : World) : CallResult * World :=
  if (length args <? 1)%nat || negb (IsString (arg args 0)) then
    (Threw (JsExc TypeError "DB.open() expects a filename"), w)
  else
    let name := c_str (bytes_of (arg args 0)) in
    let '(options, pos) := optional_options JsToOptions args 1 in
    let callback := optional_callback args pos in
    let '(p, w1) := new_Params callback (POpen name options) w in
    (Returned JsDB, EIO_BeforeOpen p w1).

Definition with_status (s : Status) (b : Params) : Params :=
  {| callback := callback b; status := s; op := op b |}.

Definition with_op (o : OpParams) (b : Params) : Params :=
  {| callback := callback b; status := status b; op := o |}.

(** Close the old engine instance if there is one, then open. *)
Definition EIO_Open (name : bytes) (options : Opts) (b : Params) (w : World)
  : Params * World :=
  let e1 := match db w with
            | Some i => ldb_delete i (env w)
            | None => env w
            end in
  match ldb_Open options name e1 with
  | (inl i, e2) => (with_status StOk b, set_engine (Some i) e2 w)
  | (inr (c, m), e2) => (with_status (StErr c m) b, set_engine None e2 w)
  end.

(** *** Close *)

Definition EIO_BeforeClose (p : nat) (w : World) : World := eio_custom p w.

Definition DB_Close (args : list JsValue) (w : World) : CallResult * World :=
  let callback := optional_callback args 0 in
  let '(p, w1) := new_Params callback PClose w in
  (Returned JsDB, EIO_BeforeClose p w1).

Definition EIO_Close (b : Params) (w : World) : Params * World :=
  match db w with
  | Some i => (b, set_engine None (ldb_delete i (env w)) w)
  | None => (b, w)
  end.

(** *** Put, Del, Write *)

Definition EIO_BeforeWrite (p : nat) (w : World) : World := eio_custom p w.

(** Modelled from the spec: the constructor of [WriteParams] (DB.h) is not
    among the sources; a batch handed to [write] is owned by the caller, so
    a fresh bundle does not dispose of its batch. *)
Definition new_WriteParams (writeBatch : nat) (options : Opts) (cb : option nat)
    (w : World) : nat * World :=
  new_Params cb (PWrite writeBatch options false) w.

(** [params->disposeWriteBatch = v] *)
Definition set_disposeWriteBatch (p : nat) (v : bool) (w : World) : World :=
  set_params
    (alter (fun b => match op b with
                     | PWrite l o _ => with_op (PWrite l o v) b
                     | _ => b
                     end) p (params w)) w.

Definition DB_Put (args : list JsValue) (w : World) : CallResult * World :=
  match db w with
  | None => (Threw not_opened, w)
  | Some _ =>
    if (length args <? 2)%nat || negb (is_key (arg args 0)) || negb (is_key (arg args 1)) then
      (Threw (JsExc TypeError "DB.put() expects key, value"), w)
    else
      let '(key, s1) := JsToSlice (arg args 0) (Some []) in
      let '(value, s2) := JsToSlice (arg args 1) s1 in
      let '(writeBatch, w1) :=
        new_WriteBatch {| wb := [BPut key value]; wb_strings := default [] s2 |} w in
      let '(options, pos) := optional_options JsToWriteOptions args 2 in
      let callback := optional_callback args pos in
      let '(p, w2) := new_WriteParams writeBatch options callback w1 in
      (Returned JsDB, EIO_BeforeWrite p (set_disposeWriteBatch p true w2))
  end.

Definition DB_Del (args : list JsValue) (w : World) : CallResult * World :=
  match db w with
  | None => (Threw not_opened, w)
  | Some _ =>
    if (length args <? 1)%nat || negb (is_key (arg args 0)) then
      (Threw (JsExc TypeError "DB.del() expects key"), w)
    else
      let '(key, s1) := JsToSlice (arg args 0) (Some []) in
      let '(writeBatch, w1) :=
        new_WriteBatch {| wb := [BDelete key]; wb_strings := default [] s1 |} w in
      let '(options, pos) := optional_options JsToWriteOptions args 1 in
      let callback := optional_callback args pos in
      let '(p, w2) := new_WriteParams writeBatch options callback w1 in
      (Returned JsDB, EIO_BeforeWrite p (set_disposeWriteBatch p true w2))
  end.

Definition DB_Write (args : list JsValue) (w : World) : CallResult * World :=
  match db w with
  | None => (Threw not_opened, w)
  | Some _ =>
    if (length args <? 1)%nat || negb (IsObject (arg args 0)) then
      (Threw (JsExc TypeError "DB.write() expects a WriteBatch object"), w)
    else
      match Unwrap (arg args 0) with
      | Some writeBatch =>
        let '(options, pos) := optional_options JsToWriteOptions args 1 in
        let callback := optional_callback args pos in
        let '(p, w1) := new_WriteParams writeBatch options callback w in
        (Returned JsDB, EIO_BeforeWrite p w1)
      | None =>
        (* the assertion of ObjectWrap::Unwrap<WriteBatch> *)
        (Faulted, w)
      end
  end.

(** The worker function of a write; [None] when no [WriteBatch] lives where
    the pointer of the bundle points: a batch that was destroyed, or the
    native object of another kind that [write] unwrapped (undefined
    behaviour). *)
Definition EIO_Write (writeBatch : nat) (options : Opts) (b : Params) (w : World)
  : option (Params * World) :=
  match db w with
  | Some i =>
    match batches w !! writeBatch with
    | Some wbatch =>
      let '(s, e) := ldb_Write i options (wb wbatch) (env w) in
      Some (with_status s b, set_engine (db w) e w)
    | None => None
    end
  | None => Some (b, w)
  end.

(** *** Get *)

Definition EIO_BeforeRead (p : nat) (w : World) : World := eio_custom p w.

Definition DB_Get (args : list JsValue) (w : World) : CallResult * World :=
  if (length args <? 1)%nat || negb (is_key (arg args 0)) then
    (Threw (JsExc TypeError "DB.get() expects key"), w)
  else
    match db w with
    | None => (Threw not_opened, w)
    | Some _ =>
      let strings := if IsString (arg args 0) then Some [[]] else None in
      let '(key, strings) := JsToSlice (arg args 0) strings in
      let '(options, pos) := optional_options JsToReadOptions args 1 in
      let callback := optional_callback args pos in
      let '(p, w1) := new_Params callback (PRead key options strings []) w in
      (Returned JsDB, EIO_BeforeRead p w1)
    end.

Definition EIO_Read (key : bytes) (options : Opts) (strings : option (list bytes))
    (result : bytes) (b : Params) (w : World) : Params * World :=
  match db w with
  | Some i =>
    match ldb_Get i options key (env w) with
    | inl v => (with_op (PRead key options strings v) (with_status StOk b), w)
    | inr (c, m) => (with_status (StErr c m) b, w)
    end
  | None => (b, w)
  end.

(** *** NewIterator and the stubs *)

Definition DB_NewIterator (args : list JsValue) (w : World) : CallResult * World :=
  if negb ((length args =? 1)%nat && IsObject (arg args 0)) then
    (Threw (JsExc TypeError "Invalid arguments: Expected (Object)"), w)
  else
    let options := JsToReadOptions (arg args 0) in
    match db w with
    | Some i => (ReturnedIterator (ldb_NewIterator i options (env w)), w)
    | None =>
      (* self->db->NewIterator(options) with self->db == NULL *)
      (Faulted, w)
    end.

Definition todo : JsValue := JsExc Error "TODO: IMPLEMENT ME".

Definition DB_GetSnapshot (args : list JsValue) (w : World) : CallResult * World :=
  (Threw todo, w).
Definition DB_ReleaseSnapshot (args : list JsValue) (w : World) : CallResult * World :=
  (Threw todo, w).
Definition DB_GetProperty (args : list JsValue) (w : World) : CallResult * World :=
  (Threw todo, w).
Definition DB_GetApproximateSizes (args : list JsValue) (w : World) : CallResult * World :=
  (Threw todo, w).

(** *** [DB::Params::Callback] and the after functions *)

(** The arguments the callback is called with. *)
Definition callback_argv (st : Status) (result : option JsValue) : list JsValue :=
  if ok st then
    match result with
    | None => []
    | Some r => [JsNull; r]
    end
  else if IsNotFound st then [JsNull]
  else [JsExc Error (ToString st)].

(** [params->Callback(result)]; [result = None] is the empty handle.
    [FatalException] belongs to the host; the after function goes on when it
    returns. *)
Definition Callback (p : nat) (b : Params) (result : option JsValue) (w : World) : World :=
  match callback b with
  | None => w
  | Some f =>
    let argv := callback_argv (status b) result in
    let w1 := log (EvCall p f argv) w in
    match Function_Call f argv with
    | Some e => log (EvFatal p e) w1        (* try_catch.HasCaught() *)
    | None => w1
    end
  end.

Definition EIO_AfterOpen (p : nat) (b : Params) (w : World) : World :=
  delete_Params p (Callback p b None w).

Definition EIO_AfterClose (p : nat) (b : Params) (w : World) : World :=
  delete_Params p (Callback p b None w).

Definition EIO_AfterWrite (p : nat) (writeBatch : nat) (disposeWriteBatch : bool)
    (b : Params) (w : World) : World :=
  let w1 := Callback p b None w in
  let w2 := if disposeWriteBatch then delete_WriteBatch writeBatch w1 else w1 in
  delete_Params p w2.

Definition EIO_AfterRead (p : nat) (result : bytes) (b : Params) (w : World) : World :=
  delete_Params p (Callback p b (Some (JsStr (Utf8.decode result))) w).

(** *** The bridge

    [eio_custom] runs the execute function of a submitted request on a
    worker thread, then the after function on the caller thread.  Requests
    are picked in any order. *)

Definition run_execute (b : Params) (w : World) : option (Params * World) :=
  match op b with
  | POpen name options => Some (EIO_Open name options b w)
  | PClose => Some (EIO_Close b w)
  | PWrite l options _ => EIO_Write l options b w
  | PRead key options strings result => Some (EIO_Read key options strings result b w)
  end.

Definition run_after (p : nat) (b : Params) (w : World) : World :=
  match op b with
  | POpen _ _ => EIO_AfterOpen p b w
  | PClose => EIO_AfterClose p b w
  | PWrite l _ d => EIO_AfterWrite p l d b w
  | PRead _ _ _ result => EIO_AfterRead p result b w
  end.

(** The request [p] leaves a list of requests. *)
Definition without (p : nat) (l : list nat) : list nat :=
  filter (fun q => q ≠ p) l.

Definition execute (p : nat) (w : World) : option World :=
  if bool_decide (p ∈ queue w) then
    match params w !! p with
    | Some b =>
      match run_execute b (on_thread Worker w) with
      | Some (b', w1) =>
        Some (log (EvExecute p)
                (set_queues (without p (queue w1)) (done_ w1 ++ [p])
                   (set_params (<[p := b']> (params w1)) w1)))
      | None => None
      end
    | None => None
    end
  else None.

Definition complete (p : nat) (w : World) : option World :=
  if bool_decide (p ∈ done_ w) then
    match params w !! p with
    | Some b =>
      let w1 := on_thread Caller w in
      Some (run_after p b (set_queues (queue w1) (without p (done_ w1)) w1))
    | None => None
    end
  else None.

Inductive Method :=
| m_open | m_close | m_put | m_del | m_write | m_get | m_newIterator
| m_getSnapshot | m_releaseSnapshot | m_getProperty | m_getApproximateSizes.

(** The prototype methods registered by [DB::Init] ([destroyDB] and
    [repairDB], static and synchronous, touch no binding object). *)
Definition invoke (m : Method) (args : list JsValue) (w : World) : CallResult * World :=
  match m with
  | m_open => DB_Open args w
  | m_close => DB_Close args w
  | m_put => DB_Put args w
  | m_del => DB_Del args w
  | m_write => DB_Write args w
  | m_get => DB_Get args w
  | m_newIterator => DB_NewIterator args w
  | m_getSnapshot => DB_GetSnapshot args w
  | m_releaseSnapshot => DB_ReleaseSnapshot args w
  | m_getProperty => DB_GetProperty args w
  | m_getApproximateSizes => DB_GetApproximateSizes args w
  end.

(** One step of the whole: a call of the program, a worker running the
    execute function of a request, or the event loop running its after
    function.  A call that faults ends the process: there is no next state. *)
Inductive Action :=
| Invoke (m : Method) (args : list JsValue)   (* the program calls a method *)
| NewBatch (b : WriteBatch)                   (* the program builds a WriteBatch *)
| Execute (p : nat)                           (* a worker runs a request *)
| Complete (p : nat).                         (* the event loop finishes a request *)

Definition step (a : Action) (w : World) : option World :=
  match a with
  | Invoke m args =>
    match invoke m args (on_thread Caller w) with
    | (Faulted, _) => None
    | (_, w') => Some w'
    end
  | NewBatch b => Some (snd (new_WriteBatch b (on_thread Caller w)))
  | Execute p => execute p w
  | Complete p => complete p w
  end.

Fixpoint run (acts : list Action) (w : World) : option World :=
  match acts with
  | [] => Some w
  | a :: rest =>
    match step a w with
    | Some w' => run rest w'
    | None => None
    end
  end.

Inductive reachable : World -> Prop :=
| reachable_initial e : reachable (initial e)
| reachable_step a w w' : reachable w -> step a w = Some w' -> reachable w'.

(** *** What a trace says about one request *)

Definition is_new (p : nat) (e : Thread * Ev) : bool :=
  match e with (_, EvNewParams q) => bool_decide (q = p) | _ => false end.
Definition is_execute (p : nat) (e : Thread * Ev) : bool :=
  match e with (_, EvExecute q) => bool_decide (q = p) | _ => false end.
Definition is_call (p : nat) (e : Thread * Ev) : bool :=
  match e with (_, EvCall q _ _) => bool_decide (q = p) | _ => false end.
Definition is_delete (p : nat) (e : Thread * Ev) : bool :=
  match e with (_, EvDeleteParams q) => bool_decide (q = p) | _ => false end.

Definition count (P : Thread * Ev -> bool) (tr : list (Thread * Ev)) : nat :=
  length (filter (fun e => P e = true) tr).

(** The calls made to the callback of request [p], newest first. *)
Definition calls_of (p : nat) (tr : list (Thread * Ev)) : list (nat * list JsValue) :=
  omap (fun e => match e.2 with
                 | EvCall q f argv => if bool_decide (q = p) then Some (f, argv) else None
                 | _ => None
                 end) tr.

(** The exceptions of callbacks of request [p] handed to [FatalException]. *)
Definition fatals_of (p : nat) (tr : list (Thread * Ev)) : list JsValue :=
  omap (fun e => match e.2 with
                 | EvFatal q x => if bool_decide (q = p) then Some x else None
                 | _ => None
                 end) tr.

(** The result handed to [Callback] by the after function of a bundle. *)
Definition after_result (b : Params) : option JsValue :=
  match op b with
  | PRead _ _ _ result => Some (JsStr (Utf8.decode result))
  | _ => None
  end.

(** What [Callback] does, newest first: the call, and the report to
    [FatalException] when the call threw. *)
Definition callback_events (p : nat) (b : Params) (result : option JsValue) : list Ev :=
  match callback b with
  | None => []
  | Some f =>
    let argv := callback_argv (status b) result in
    match Function_Call f argv with
    | Some e => [EvFatal p e; EvCall p f argv]
    | None => [EvCall p f argv]
    end
  end.

(** What the after function of a bundle does, newest first. *)
Definition after_events (p : nat) (b : Params) : list Ev :=
  EvDeleteParams p ::
  match op b with
  | PWrite l _ true => [EvDeleteBatch l]
  | _ => []
  end ++ callback_events p b (after_result b).

(** A request that was dispatched: bundle built, then submitted. *)
Definition dispatch (cb : option nat) (o : OpParams) (w : World) : World :=
  eio_custom (next_loc w) (new_Params cb o w).2.

Definition fresh_op (o : OpParams) : Prop :=
  forall k o' s r, o = PRead k o' s r -> r = [].

(** *** The write path as the specification words it

    [put] builds a fresh mutation set holding the single entry
    [Put(k, v)], owned by the operation, and submits it through the path
    of [write]; [del] does the same with the single entry [Delete(k)]. *)

(** The copies a mutation set owns: one per text argument. *)
Definition owned_copies (vs : list JsValue) : list bytes :=
  omap (fun v => match v with JsStr s => Some (Utf8.encode s) | _ => None end) vs.

Definition single_put (k v : JsValue) : WriteBatch :=
  {| wb := [BPut (bytes_of k) (bytes_of v)]; wb_strings := owned_copies [k; v] |}.

Definition single_delete (k : JsValue) : WriteBatch :=
  {| wb := [BDelete (bytes_of k)]; wb_strings := owned_copies [k] |}.

(** Submit the mutation set [b] through [write]; the operation owns it. *)
Definition write_owned (b : WriteBatch) (rest : list JsValue) (w : World)
  : CallResult * World :=
  let '(l, w1) := new_WriteBatch b w in
  let '(r, w2) := DB_Write (JsBatchObj l :: rest) w1 in
  (r, set_disposeWriteBatch (next_loc w1) true w2).

Definition spec_put (k v : JsValue) (rest : list JsValue) (w : World)
  : CallResult * World :=
  write_owned (single_put k v) rest w.

Definition spec_del (k : JsValue) (rest : list JsValue) (w : World)
  : CallResult * World :=
  write_owned (single_delete k) rest w.

(** *** Scenarios *)

(** [put(k, v)], then [get(k, cb)], each run to completion before the
    next call, with no other operation in between. *)
Definition put_then_get (k v : JsValue) (cb : nat) (w : World) : option World :=
  let p := S (next_loc w) in
  let q := S p in
  run [Invoke m_put [k; v]; Execute p; Complete p;
       Invoke m_get [k; JsFun cb]; Execute q; Complete q] w.

(** The engine contract used by the round trip: a key written by a
    successful single put is read back. *)
Definition read_your_write : Prop :=
  forall i wo ro k v e e',
    ldb_Write i wo [BPut k v] e = (StOk, e') -> ldb_Get i ro k e' = inl v.

(** *** Statements examined against the code *)

(** A call on a closed handle throws the not-opened error and leaves the
    binding as it was. *)
Definition closed_call_rejected (m : Method) (args : list JsValue) (w : World) : Prop :=
  invoke m args w = (Threw not_opened, w).

(** After [put(k, v)] and [get(k, cb)] the callback of the get received a
    payload with the bytes of [v]. *)
Definition round_trip_bytes (k v : JsValue) (cb : nat) (w : World) : Prop :=
  exists w' payload,
    put_then_get k v cb w = Some w' /\
    head (calls_of (S (S (next_loc w))) (trace w')) = Some (cb, [JsNull; payload]) /\
    bytes_of payload = bytes_of v.

(** *** Invariants of the reachable states *)

Definition thread_of (e : Ev) : Thread :=
  match e with
  | EvExecute _ => Worker
  | _ => Caller
  end.

Record inv (w : World) : Prop := {
  inv_refs : refs w = length (queue w ++ done_ w);
  inv_ev_refs : ev_refs w = length (queue w ++ done_ w);
  inv_nodup : NoDup (queue w ++ done_ w);
  inv_live : forall p, p ∈ queue w ++ done_ w <-> is_Some (params w !! p);
  inv_bound : forall p, is_Some (params w !! p) -> (p < next_loc w)%nat;
  inv_fresh : forall p b, p ∈ queue w -> params w !! p = Some b ->
              status b = StOk /\ fresh_op (op b);
  inv_threads : forall t e, (t, e) ∈ trace w -> t = thread_of e;
  inv_unborn : forall p, (next_loc w <= p)%nat -> count (is_new p) (trace w) = 0%nat;
  inv_queued : forall p, p ∈ queue w ->
               count (is_new p) (trace w) = 1%nat /\
               count (is_execute p) (trace w) = 0%nat /\
               count (is_call p) (trace w) = 0%nat /\
               count (is_delete p) (trace w) = 0%nat;
  inv_executed : forall p, p ∈ done_ w ->
               count (is_new p) (trace w) = 1%nat /\
               count (is_execute p) (trace w) = 1%nat /\
               count (is_call p) (trace w) = 0%nat /\
               count (is_delete p) (trace w) = 0%nat;
  inv_gone : forall p, p ∉ queue w ++ done_ w ->
               (count (is_new p) (trace w) <= 1)%nat /\
               count (is_execute p) (trace w) = count (is_new p) (trace w) /\
               (count (is_call p) (trace w) <= count (is_new p) (trace w))%nat /\
               count (is_delete p) (trace w) = count (is_new p) (trace w)
}.

End Binding.

(** ** The calls and the batches, seen from the program *)

Section Calls.
Context `{LevelDB} `{Host}.

(** The methods that go through the bridge, with the number of arguments
    each reads before the optional options object and callback. *)
Definition required (m : Method) : option nat :=
  match m with
  | m_open => Some 1
  | m_close => Some 0
  | m_put => Some 2
  | m_del => Some 1
  | m_write => Some 1
  | m_get => Some 1
  | _ => None
  end.

(** close reads no options object: its callback is its first argument. *)
Definition reads_options (m : Method) : bool :=
  match m with m_close => false | _ => true end.

(** The callback found in the arguments that follow the required ones:
    the function right there, or the function after one object when the
    method reads an options object. *)
Definition callback_in (options : bool) (tail : list JsValue) : option nat :=
  match tail with
  | JsFun f :: _ => Some f
  | x :: JsFun f :: _ => if IsObject x && options then Some f else None
  | _ => None
  end.

Definition is_open (w : World) : bool :=
  match db w with Some _ => true | None => false end.

(** The objects [ObjectWrap::Unwrap] gives a pointer for. *)
Definition is_wrapped (v : JsValue) : bool :=
  match Unwrap v with Some _ => true | None => false end.

(** The guards a call has to pass to be dispatched, method by method. *)
Definition accepts (m : Method) (args : list JsValue) (w : World) : bool :=
  match m with
  | m_open => (1 <=? length args)%nat && IsString (arg args 0)
  | m_close => true
  | m_put => is_open w && (2 <=? length args)%nat && is_key (arg args 0) && is_key (arg args 1)
  | m_del => is_open w && (1 <=? length args)%nat && is_key (arg args 0)
  | m_write => is_open w && (1 <=? length args)%nat && is_wrapped (arg args 0)
  | m_get => (1 <=? length args)%nat && is_key (arg args 0) && is_open w
  | _ => false
  end.

(** The bundle at [p] is a write that owns the batch at [l]. *)
Definition owns (w : World) (p l : nat) : Prop :=
  exists b o, params w !! p = Some b /\ op b = PWrite l o true.

(** The batches owned by bundles: allocated, each owned by one bundle. *)
Record batches_ok (w : World) : Prop := {
  owned_live : forall p l, owns w p l -> is_Some (batches w !! l);
  owned_bound : forall p l, owns w p l -> (l < next_loc w)%nat;
  owned_once : forall p p' l, owns w p l -> owns w p' l -> p = p'
}.

(** The events of the life of request [p]: its bundle is constructed, the
    request submitted and executed, its callback called, an exception of
    the callback reported, its bundle destroyed. *)
Definition about (p : nat) (e : Thread * Ev) : bool :=
  match e with
  | (_, EvNewParams q) | (_, EvSubmit q) | (_, EvExecute q)
  | (_, EvCall q _ _) | (_, EvFatal q _) | (_, EvDeleteParams q) => bool_decide (q = p)
  | (_, EvDeleteBatch _) => false
  end.

(** The life of request [p] as a trace has it, newest first. *)
Definition history (p : nat) (tr : list (Thread * Ev)) : list Ev :=
  (filter (fun e => about p e = true) tr).*2.

(** The life of every request follows the order of the code: constructed
    and submitted while it is queued, then executed, then (once it is
    gone) its callback called and its bundle destroyed last. *)
Record lives_ok (w : World) : Prop := {
  life_unborn : forall p, (next_loc w <= p)%nat -> history p (trace w) = [];
  life_queued : forall p, p ∈ queue w ->
                history p (trace w) = [EvSubmit p; EvNewParams p];
  life_executed : forall p, p ∈ done_ w ->
                history p (trace w) = [EvExecute p; EvSubmit p; EvNewParams p];
  life_gone : forall p, p ∉ queue w ++ done_ w ->
                history p (trace w) = [] \/
                exists b, history p (trace w)
                          = EvDeleteParams p :: callback_events p b (after_result b)
                            ++ [EvExecute p; EvSubmit p; EvNewParams p]
}.

(** The after function of a request up to [delete params]: the callback is
    called, then the batch of a put or a del is destroyed. *)
Definition before_delete (p : nat) (b : Params) (w : World) : World :=
  let w1 := Callback p b (after_result b) w in
  match op b with
  | PWrite l _ true => delete_WriteBatch l w1
  | _ => w1
  end.

(** The arguments a completion passes for a status, without a result. *)
Definition status_argv (s : Status) : list JsValue :=
  match s with
  | StOk => []
  | StErr kNotFound _ => [JsNull]
  | StErr _ _ => [JsExc Error (ToString s)]
  end.

End Calls.

(** ** Concrete runs on the reference engine *)

Module Scenario.

#[local] Existing Instances Reference.engine Reference.host.

Definition text (s : string) : JsValue :=
  JsStr (map (fun a => N.of_nat (Ascii.nat_of_ascii a)) (String.list_ascii_of_string s)).

Definition create : JsValue := JsPlain [("create_if_missing"%string, true)].

Definition closed : World := initial Reference.empty_disk.

(** The state after a run from the closed binding. *)
Definition after (acts : list Action) : World := default closed (run acts closed).

(** [db.open("db", {create_if_missing: true}, f1)], run to completion. *)
Definition open_db : list Action :=
  [Invoke m_open [text "db"; create; JsFun 1]; Execute 0; Complete 0].

Definition opened : World := after open_db.

(** The engine instance of [opened]. *)
Definition the_db : @Inst Reference.engine := bytes_of (text "db").

(** An open request that was executed and waits for its completion. *)
Definition open_executed : World :=
  after [Invoke m_open [text "db"; create; JsFun 1]; Execute 0].

(** A close request whose callback (function 0) throws, executed. *)
Definition close_executed_throwing : World :=
  after [Invoke m_close [JsFun 0]; Execute 0].

(** A get, by a buffer key, of a value put as a byte buffer, executed. *)
Definition get_executed : World :=
  after (open_db ++ [Invoke m_put [text "k"; JsBuf [Byte.x68; Byte.x69]];
                     Execute 2; Complete 2;
                     Invoke m_get [JsBuf [Byte.x6b]; JsFun 3]; Execute 3]).

(** A second open, of another path, queued on the open binding. *)
Definition reopen_queued : World :=
  after (open_db ++ [Invoke m_open [text "other"; create]]).

(** A close queued on the open binding. *)
Definition close_queued : World :=
  after (open_db ++ [Invoke m_close [JsFun 2]]).

(** A get queued, then a close that the worker ran first. *)
Definition get_queued_after_close : World :=
  after (open_db ++ [Invoke m_get [text "k"; JsFun 3]; Invoke m_close []; Execute 2]).

(** A put and a get in flight. *)
Definition two_in_flight : World :=
  after (open_db ++ [Invoke m_put [text "k"; text "v"]; Invoke m_get [text "k"; JsFun 3]]).

(** A put with a callback, queued on the open binding. *)
Definition put_queued : World :=
  after (open_db ++ [Invoke m_put [text "k"; text "v"; JsFun 5]]).

(** A get of a key that was never written, queued on the open binding. *)
Definition get_missing_queued : World :=
  after (open_db ++ [Invoke m_get [text "nokey"; JsFun 3]]).

(** An open of a path that does not exist, without [create_if_missing]. *)
Definition open_missing_queued : World :=
  after [Invoke m_open [text "nodb"; JsFun 1]].

(** A put without a callback, executed. *)
Definition put_executed_silent : World :=
  after (open_db ++ [Invoke m_put [text "k"; text "v"]; Execute 2]).

(** A close that the worker ran, after the open. *)
Definition close_executed : World :=
  after (open_db ++ [Invoke m_close []; Execute 1]).

(** A put and a get, both run to completion. *)
Definition all_done : World :=
  after (open_db ++ [Invoke m_put [text "k"; text "v"; JsFun 5]; Execute 2; Complete 2;
                     Invoke m_get [text "k"; JsFun 3]; Execute 3; Complete 3]).

End Scenario.

(** * Properties *)

(** ** Transcoding *)

Module Utf8Facts.
Import Utf8.
Local Open Scope N_scope.

(** Linear arithmetic with division and remainder by constants. *)
Ltac div_lia := zify; Z.to_euclidean_division_equations; lia.

Lemma to_N_byte_of_N n : n < 256 -> Byte.to_N (byte_of_N n) = n.
Proof.
  intros Hn. unfold byte_of_N. rewrite N.mod_small by done.
  destruct (Byte.of_N n) as [b|] eqn:E.
  - by apply Byte.to_of_N.
  - apply Byte.of_N_None_iff in E. div_lia.
Qed.

Lemma decode_cons b0 r0 :
  decode (b0 :: r0) =
      let n0 := Byte.to_N b0 in
      if n0 <? 128 then n0 :: decode r0
      else if (194 <=? n0) && (n0 <? 224) then
        match r0 with
        | b1 :: r1 =>
          if is_cont b1 then ((n0 - 192) * 64 + payload b1) :: decode r1
          else replacement :: decode r0
        | [] => [replacement]
        end
      else if (224 <=? n0) && (n0 <? 240) then
        match r0 with
        | b1 :: (b2 :: r2) as r1 =>
          let c := (n0 - 224) * 4096 + payload b1 * 64 + payload b2 in
          if is_cont b1 && is_cont b2 && (2048 <=? c)
             && negb ((55296 <=? c) && (c <? 57344))
          then c :: decode r2
          else replacement :: decode r0
        | _ => replacement :: decode r0
        end
      else if (240 <=? n0) && (n0 <? 245) then
        match r0 with
        | b1 :: (b2 :: (b3 :: r3)) =>
          let c := (n0 - 240) * 262144 + payload b1 * 4096
                   + payload b2 * 64 + payload b3 in
          if is_cont b1 && is_cont b2 && is_cont b3
             && (65536 <=? c) && (c <? 1114112)
          then c :: decode r3
          else replacement :: decode r0
        | _ => replacement :: decode r0
        end
      else replacement :: decode r0.
Proof. reflexivity. Qed.

Lemma is_cont_byte n : n < 64 -> is_cont (byte_of_N (128 + n)) = true.
Proof.
  intros Hn. unfold is_cont. rewrite to_N_byte_of_N by div_lia.
  apply andb_true_intro. split; [apply N.leb_le|apply N.ltb_lt]; div_lia.
Qed.

Lemma payload_byte n : n < 64 -> payload (byte_of_N (128 + n)) = n.
Proof.
  intros Hn. unfold payload. rewrite to_N_byte_of_N by div_lia. div_lia.
Qed.

Ltac decide_test :=
  repeat match goal with
  | |- context [ ?a <? ?b ] =>
    first [ replace (a <? b) with true by (symmetry; apply N.ltb_lt; div_lia)
          | replace (a <? b) with false by (symmetry; apply N.ltb_ge; div_lia) ]
  | |- context [ ?a <=? ?b ] =>
    first [ replace (a <=? b) with true by (symmetry; apply N.leb_le; div_lia)
          | replace (a <=? b) with false by (symmetry; apply N.leb_gt; div_lia) ]
  end.

Lemma decode_encode_cp c rest :
  scalar c -> decode (encode_cp c ++ rest) = c :: decode rest.
Proof.
  intros Hc. unfold encode_cp.
  destruct (N.ltb_spec c 128) as [H1|H1]; [|destruct (N.ltb_spec c 2048) as [H2|H2];
    [|destruct (N.ltb_spec c 65536) as [H3|H3]]]; simpl app; rewrite decode_cons; cbv zeta.
  - rewrite to_N_byte_of_N by div_lia. decide_test. reflexivity.
  - rewrite to_N_byte_of_N by div_lia. decide_test. simpl andb. cbv iota.
    assert (Hm : c mod 64 < 64) by div_lia.
    rewrite is_cont_byte, payload_byte by done. f_equal. div_lia.
  - rewrite to_N_byte_of_N by div_lia. decide_test. simpl andb. cbv iota.
    assert (Hm : c mod 64 < 64) by div_lia.
    assert (Hm' : (c / 64) mod 64 < 64) by div_lia.
    rewrite !is_cont_byte, !payload_byte by done.
    replace ((224 + c / 4096 - 224) * 4096 + (c / 64) mod 64 * 64 + c mod 64) with c by div_lia.
    assert (Hs : c < 55296 \/ 57344 <= c) by (destruct Hc; div_lia).
    replace (2048 <=? c) with true by (symmetry; apply N.leb_le; div_lia).
    destruct Hs; decide_test; reflexivity.
  - assert (Hu : c < 1114112) by (destruct Hc; div_lia).
    rewrite to_N_byte_of_N by div_lia. decide_test. simpl andb. cbv iota.
    assert (Hm : c mod 64 < 64) by div_lia.
    assert (Hm' : (c / 64) mod 64 < 64) by div_lia.
    assert (Hm'' : (c / 4096) mod 64 < 64) by div_lia.
    rewrite !is_cont_byte, !payload_byte by done.
    replace ((240 + (c / 262144) mod 8 - 240) * 262144 + (c / 4096) mod 64 * 4096
             + (c / 64) mod 64 * 64 + c mod 64) with c by div_lia.
    decide_test. reflexivity.
Qed.

Lemma decode_encode s : Forall scalar s -> decode (encode s) = s.
Proof.
  induction 1 as [|c s Hc Hs IH]; [reflexivity|].
  unfold encode in *. simpl. rewrite decode_encode_cp by done. by rewrite IH.
Qed.

(** The first byte of an encoded code point is never [ff]. *)
Lemma encode_cp_head c : exists b r, encode_cp c = b :: r /\ Byte.to_N b < 248.
Proof.
  unfold encode_cp.
  destruct (N.ltb_spec c 128) as [H1|H1]; [|destruct (N.ltb_spec c 2048) as [H2|H2];
    [|destruct (N.ltb_spec c 65536) as [H3|H3]]]; eexists _, _; (split; [reflexivity|]);
    rewrite to_N_byte_of_N; div_lia.
Qed.

(** No text has the single byte [ff] as its encoding. *)
Lemma encode_not_ff s : encode s ≠ [Byte.xff].
Proof.
  destruct s as [|c s]; [done|]. unfold encode. simpl.
  destruct (encode_cp_head c) as (b & r & -> & Hb). simpl.
  intros [= -> _]. vm_compute in Hb. discriminate Hb.
Qed.

End Utf8Facts.

Section Theory.
Context `{LevelDB} `{Host}.

(** ** Counting events *)

Lemma count_cons P e tr :
  count P (e :: tr) = ((if P e then 1 else 0) + count P tr)%nat.
Proof.
  unfold count. rewrite filter_cons.
  destruct (decide (P e = true)) as [E|E].
  - by rewrite E.
  - by destruct (P e).
Qed.

Lemma count_nil P : count P [] = 0%nat.
Proof. reflexivity. Qed.

Lemma count_app P tr1 tr2 : count P (tr1 ++ tr2) = (count P tr1 + count P tr2)%nat.
Proof. unfold count. by rewrite filter_app, length_app. Qed.

Ltac count_step :=
  rewrite ?count_app, ?count_cons, ?count_nil; simpl.

(** ** What the building blocks change *)

Lemma put_bundle l o cb w :
  set_disposeWriteBatch (next_loc w) true (new_WriteParams l o cb w).2
  = (new_Params cb (PWrite l o true) w).2.
Proof.
  unfold set_disposeWriteBatch, new_WriteParams, new_Params, set_params, log; simpl.
  by rewrite alter_insert_eq.
Qed.

Lemma set_dispose_eio p q v w :
  set_disposeWriteBatch p v (eio_custom q w) = eio_custom q (set_disposeWriteBatch p v w).
Proof. reflexivity. Qed.

Lemma optional_options_shift conv a args pos :
  optional_options conv (a :: args) (S pos)
  = ((optional_options conv args pos).1, S (optional_options conv args pos).2).
Proof.
  unfold optional_options, arg. simpl.
  replace (S pos <? S (length args))%nat with (pos <? length args)%nat
    by (destruct (Nat.ltb_spec pos (length args)), (Nat.ltb_spec (S pos) (S (length args)));
        auto; lia).
  by destruct (_ && _ && _).
Qed.

Lemma optional_callback_shift a args pos :
  optional_callback (a :: args) (S pos) = optional_callback args pos.
Proof.
  unfold optional_callback, arg. simpl.
  replace (S pos <? S (length args))%nat with (pos <? length args)%nat
    by (destruct (Nat.ltb_spec pos (length args)), (Nat.ltb_spec (S pos) (S (length args)));
        auto; lia).
  reflexivity.
Qed.

(** Every call either leaves the binding as it was, or dispatches one
    request, after building one write batch in the case of put and del. *)
Lemma invoke_shape m args w r w' :
  invoke m args w = (r, w') ->
  w' = w \/
  exists cb o, fresh_op o /\
    (w' = dispatch cb o w \/ exists b, w' = dispatch cb o (new_WriteBatch b w).2).
Proof.
  intros Hi. destruct m; simpl in Hi.
  - unfold DB_Open in Hi. destruct (_ || _); [left; congruence|].
    destruct (optional_options _ _ _) as [o pos]. simpl in Hi.
    right. eexists _, _. split; [|left; inversion Hi; reflexivity]. unfold fresh_op; intros; discriminate.
  - unfold DB_Close in Hi. simpl in Hi.
    right. eexists _, _. split; [|left; inversion Hi; reflexivity]. unfold fresh_op; intros; discriminate.
  - unfold DB_Put in Hi. destruct (db w); [|left; congruence].
    destruct (_ || _); [left; congruence|].
    destruct (JsToSlice _ _) as [key s1]. destruct (JsToSlice _ s1) as [value s2].
    destruct (new_WriteBatch _ w) as [l w1] eqn:Hb.
    destruct (optional_options _ _ _) as [o pos].
    destruct (new_WriteParams _ _ _ _) as [p w2] eqn:Hp.
    assert (p = next_loc w1) by (unfold new_WriteParams, new_Params in Hp; congruence).
    subst p. right. eexists _, _. split; [|right; eexists].
    2:{ inversion Hi. rewrite Hb. simpl. unfold EIO_BeforeWrite.
        rewrite <- set_dispose_eio, set_dispose_eio.
        replace w2 with (new_WriteParams l o (optional_callback args pos) w1).2
          by (by rewrite Hp).
        rewrite put_bundle. reflexivity. }
    unfold fresh_op; intros; discriminate.
  - unfold DB_Del in Hi. destruct (db w); [|left; congruence].
    destruct (_ || _); [left; congruence|].
    destruct (JsToSlice _ _) as [key s1].
    destruct (new_WriteBatch _ w) as [l w1] eqn:Hb.
    destruct (optional_options _ _ _) as [o pos].
    destruct (new_WriteParams _ _ _ _) as [p w2] eqn:Hp.
    assert (p = next_loc w1) by (unfold new_WriteParams, new_Params in Hp; congruence).
    subst p. right. eexists _, _. split; [|right; eexists].
    2:{ inversion Hi. rewrite Hb. simpl. unfold EIO_BeforeWrite.
        replace w2 with (new_WriteParams l o (optional_callback args pos) w1).2
          by (by rewrite Hp).
        rewrite put_bundle. reflexivity. }
    unfold fresh_op; intros; discriminate.
  - unfold DB_Write in Hi. destruct (db w); [|left; congruence].
    destruct (_ || _); [left; congruence|].
    destruct (Unwrap (arg args 0)); [|left; congruence].
    destruct (optional_options _ _ _) as [o pos]. simpl in Hi.
    right. eexists _, _. split; [|left; inversion Hi; reflexivity]. unfold fresh_op; intros; discriminate.
  - unfold DB_Get in Hi. destruct (_ || _); [left; congruence|].
    destruct (db w); [|left; congruence].
    destruct (JsToSlice _ _) as [key ss].
    destruct (optional_options _ _ _) as [o pos]. simpl in Hi.
    right. eexists _, _. split; [|left; inversion Hi; reflexivity].
    unfold fresh_op; intros ? ? ? ? E; by inversion E.
  - unfold DB_NewIterator in Hi. destruct (negb _); [left; congruence|].
    destruct (db w); left; congruence.
  - left. unfold DB_GetSnapshot in Hi. congruence.
  - left. unfold DB_ReleaseSnapshot in Hi. congruence.
  - left. unfold DB_GetProperty in Hi. congruence.
  - left. unfold DB_GetApproximateSizes in Hi. congruence.
Qed.

Lemma Callback_trace p b result w :
  trace (Callback p b result w)
  = map (pair (thread w)) (callback_events p b result) ++ trace w.
Proof.
  unfold Callback, callback_events. destruct (callback b); [|done].
  by destruct (Function_Call _ _).
Qed.

Lemma Callback_fields p b result w :
  let w' := Callback p b result w in
  db w' = db w /\ env w' = env w /\ refs w' = refs w /\ ev_refs w' = ev_refs w /\
  params w' = params w /\ batches w' = batches w /\ next_loc w' = next_loc w /\
  queue w' = queue w /\ done_ w' = done_ w /\ thread w' = thread w.
Proof.
  unfold Callback. destruct (callback b); [|done].
  by destruct (Function_Call _ _).
Qed.

Lemma run_after_trace p b w :
  trace (run_after p b w) = map (pair (thread w)) (after_events p b) ++ trace w.
Proof.
  pose proof (Callback_fields p b (after_result b) w) as (_&_&_&_&_&_&_&_&_&Ht).
  pose proof (Callback_trace p b (after_result b) w) as Hc.
  unfold run_after, after_events, after_result in *.
  destruct (op b) as [| |l o [|]|]; simpl;
    unfold EIO_AfterOpen, EIO_AfterClose, EIO_AfterWrite, EIO_AfterRead; simpl;
    rewrite ?Ht, Hc; reflexivity.
Qed.

Lemma run_after_fields p b w :
  let w' := run_after p b w in
  db w' = db w /\ env w' = env w /\ refs w' = pred (refs w) /\
  ev_refs w' = pred (ev_refs w) /\ params w' = delete p (params w) /\
  next_loc w' = next_loc w /\ queue w' = queue w /\ done_ w' = done_ w /\
  thread w' = thread w /\
  batches w' = match op b with
               | PWrite l _ true => delete l (batches w)
               | _ => batches w
               end.
Proof.
  pose proof (Callback_fields p b (after_result b) w)
    as (Hd&He&Hr&Hv&Hp&Hb&Hn&Hq&Hdn&Ht).
  unfold run_after, after_result in *.
  destruct (op b) as [| |l o [|]|]; simpl;
    unfold EIO_AfterOpen, EIO_AfterClose, EIO_AfterWrite, EIO_AfterRead; simpl;
    rewrite ?Hd, ?He, ?Hr, ?Hv, ?Hp, ?Hb, ?Hn, ?Hq, ?Hdn, ?Ht; done.
Qed.

(** The execute functions touch the engine and the bundle, nothing else. *)
Lemma run_execute_fields b w b' w' :
  run_execute b w = Some (b', w') ->
  refs w' = refs w /\ ev_refs w' = ev_refs w /\ params w' = params w /\
  batches w' = batches w /\ next_loc w' = next_loc w /\ queue w' = queue w /\
  done_ w' = done_ w /\ thread w' = thread w /\ trace w' = trace w /\
  callback b' = callback b.
Proof.
  unfold run_execute. destruct (op b) as [name o| |l o d|k o ss r]; intros E.
  - unfold EIO_Open in E. destruct (ldb_Open _ _ _) as [[i|[c m]] e2];
      inversion E; done.
  - unfold EIO_Close in E. destruct (db w); inversion E; done.
  - unfold EIO_Write in E. destruct (db w); [|inversion E; done].
    destruct (batches w !! l); [|done].
    destruct (ldb_Write _ _ _ _). inversion E; done.
  - unfold EIO_Read in E. destruct (db w); [|inversion E; done].
    destruct (ldb_Get _ _ _ _) as [v|[c m]]; inversion E; done.
Qed.

(** ** The request lists *)

Lemma elem_of_without q p l : q ∈ without p l <-> q ≠ p /\ q ∈ l.
Proof. unfold without. by rewrite list_elem_of_filter. Qed.

Lemma without_notin p l : p ∉ l -> without p l = l.
Proof.
  unfold without. induction l as [|a l IH]; [done|]. intros Hn.
  rewrite not_elem_of_cons in Hn. destruct Hn as [Hne Hn].
  rewrite filter_cons_True by congruence. by rewrite IH.
Qed.

(** ** The invariant holds in every reachable state *)

Lemma inv_initial e : inv (initial e).
Proof.
  constructor; simpl; try done.
  - constructor.
  - intros p. rewrite lookup_empty. split; [by intros ?%elem_of_nil|by intros [? ?]].
  - intros p [? E]. by rewrite lookup_empty in E.
  - intros t e' ?%elem_of_nil. done.
  - intros p ?%elem_of_nil. done.
  - intros p ?%elem_of_nil. done.
  - intros p _. rewrite !count_nil. lia.
Qed.

Lemma inv_on_thread t w : inv w -> inv (on_thread t w).
Proof. intros []; by constructor. Qed.

Lemma inv_new_batch b w : inv w -> inv (new_WriteBatch b w).2.
Proof.
  intros []; constructor; simpl; try done.
  - intros p Hp. apply inv_bound0 in Hp. lia.
  - intros p Hp. apply inv_unborn0. lia.
Qed.

Lemma inv_dispatch cb o w :
  thread w = Caller -> fresh_op o -> inv w -> inv (dispatch cb o w).
Proof.
  intros Ht Ho Hi.
  assert (Hfresh : next_loc w ∉ queue w ++ done_ w).
  { intros Hin. apply (inv_live w Hi), (inv_bound w Hi) in Hin. lia. }
  assert (Hperm : (queue w ++ [next_loc w]) ++ done_ w ≡ₚ next_loc w :: queue w ++ done_ w).
  { by rewrite (Permutation_app_comm (queue w) [next_loc w]). }
  pose proof (inv_unborn w Hi (next_loc w) (le_n _)) as Hnew.
  pose proof (inv_gone w Hi _ Hfresh) as (_ & Hx & Hc & Hd).
  rewrite Hnew in Hx, Hc, Hd.
  assert (Hc0 : count (is_call (next_loc w)) (trace w) = 0%nat) by lia. clear Hc.
  destruct Hi. constructor; unfold dispatch; simpl.
  - rewrite Hperm. simpl. by f_equal.
  - rewrite Hperm. simpl. by f_equal.
  - rewrite Hperm. by constructor.
  - intros p. rewrite Hperm, elem_of_cons, lookup_insert_is_Some, inv_live0.
    destruct (decide (next_loc w = p)); intuition congruence.
  - intros p. rewrite lookup_insert_is_Some. intros [<-|[_ Hp]]; [lia|].
    apply inv_bound0 in Hp. lia.
  - intros p b. rewrite elem_of_app, list_elem_of_singleton.
    destruct (decide (next_loc w = p)) as [<-|Hne].
    + rewrite lookup_insert_eq. intros _ [= <-]. done.
    + rewrite lookup_insert_ne by done. intros [Hq|?]; [|congruence]. by apply inv_fresh0.
  - intros t e. rewrite Ht, !elem_of_cons.
    intros [[= -> ->]|[[= -> ->]|Hin]]; [done|done|by apply inv_threads0].
  - intros p Hp. count_step.
    rewrite bool_decide_eq_false_2 by lia. simpl. apply inv_unborn0. lia.
  - intros p. rewrite elem_of_app, list_elem_of_singleton. count_step.
    destruct (decide (next_loc w = p)) as [<-|Hne].
    + intros _. rewrite bool_decide_eq_true_2 by done. simpl. lia.
    + rewrite bool_decide_eq_false_2 by done. simpl.
      intros [Hq|?]; [|congruence]. by apply inv_queued0.
  - intros p Hp. count_step.
    destruct (decide (next_loc w = p)) as [<-|Hne].
    + exfalso. apply Hfresh. rewrite elem_of_app. by right.
    + rewrite bool_decide_eq_false_2 by done. simpl. by apply inv_executed0.
  - intros p. rewrite Hperm, not_elem_of_cons. count_step. intros [Hne Hp].
    rewrite bool_decide_eq_false_2 by congruence. simpl. by apply inv_gone0.
Qed.

Lemma without_perm p l : NoDup l -> p ∈ l -> l ≡ₚ p :: without p l.
Proof.
  induction 1 as [|a l Ha Hl IH]; intros Hp; [by apply elem_of_nil in Hp|].
  unfold without in *. destruct (decide (a = p)) as [->|Hne].
  - rewrite filter_cons_False by (intros E; by apply E).
    fold (without p l). by rewrite without_notin.
  - rewrite filter_cons_True by done.
    apply elem_of_cons in Hp. destruct Hp as [?|Hp]; [congruence|].
    rewrite (IH Hp) at 1. apply perm_swap.
Qed.

Lemma execute_inv_fields p w w' :
  execute p w = Some w' ->
  exists b b' w1,
    p ∈ queue w /\ params w !! p = Some b /\
    run_execute b (on_thread Worker w) = Some (b', w1) /\
    queue w' = without p (queue w) /\ done_ w' = done_ w ++ [p] /\
    params w' = <[p := b']> (params w) /\ refs w' = refs w /\
    ev_refs w' = ev_refs w /\ next_loc w' = next_loc w /\
    batches w' = batches w /\ db w' = db w1 /\ env w' = env w1 /\
    trace w' = (Worker, EvExecute p) :: trace w.
Proof.
  unfold execute. case_bool_decide as Hq; [|done].
  destruct (params w !! p) as [b|] eqn:Hb; [|done].
  destruct (run_execute b (on_thread Worker w)) as [[b' w1]|] eqn:Hr; [|done].
  intros [= <-]. exists b, b', w1.
  destruct (run_execute_fields _ _ _ _ Hr) as (Hr1&Hr2&Hr3&Hr4&Hr5&Hr6&Hr7&Hr8&Hr9&_).
  simpl in *. rewrite Hr1, Hr2, Hr3, Hr4, Hr5, Hr6, Hr7, Hr8, Hr9. done.
Qed.

Lemma inv_execute p w w' : inv w -> execute p w = Some w' -> inv w'.
Proof.
  intros Hi He.
  destruct (execute_inv_fields _ _ _ He)
    as (b&b'&w1&Hq&Hb&Hr&Eq&Ed&Ep&Er&Ev&En&_&_&_&Et).
  destruct (run_execute_fields _ _ _ _ Hr) as (_&_&_&_&_&_&_&_&_&Hcb).
  pose proof (inv_nodup w Hi) as Hnd.
  apply NoDup_app in Hnd as (Hndq & Hdisj & Hndd).
  assert (Hperm : without p (queue w) ++ done_ w ++ [p] ≡ₚ queue w ++ done_ w).
  { rewrite (without_perm p (queue w)) at 2 by done.
    rewrite (Permutation_app_comm (done_ w) [p]). simpl.
    by rewrite <- Permutation_middle. }
  destruct Hi. constructor; rewrite ?Eq, ?Ed, ?Ep, ?Er, ?Ev, ?En, ?Et.
  - by rewrite Hperm.
  - by rewrite Hperm.
  - by rewrite Hperm.
  - intros q. rewrite Hperm, lookup_insert_is_Some, inv_live0.
    destruct (decide (p = q)) as [<-|]; [|intuition congruence].
    split; [by left|]. intros _. by rewrite Hb.
  - intros q. rewrite lookup_insert_is_Some. intros [<-|[_ Hs]]; [|by apply inv_bound0].
    apply inv_bound0. by rewrite Hb.
  - intros q c. rewrite elem_of_without. intros [Hne Hin].
    rewrite lookup_insert_ne by congruence. by apply inv_fresh0.
  - intros t e. rewrite elem_of_cons. intros [[= -> ->]|Hin]; [done|by apply inv_threads0].
  - intros q Hq'. count_step. by apply inv_unborn0.
  - intros q. rewrite elem_of_without. intros [Hne Hin]. count_step.
    rewrite bool_decide_eq_false_2 by congruence. by apply inv_queued0.
  - intros q. rewrite elem_of_app, list_elem_of_singleton. count_step.
    destruct (decide (p = q)) as [<-|Hne].
    + intros _. rewrite bool_decide_eq_true_2 by done.
      destruct (inv_queued0 p Hq) as (-> & -> & -> & ->). done.
    + rewrite bool_decide_eq_false_2 by done.
      intros [Hin|?]; [|congruence]. by apply inv_executed0.
  - intros q. rewrite Hperm. intros Hin. count_step.
    assert (p ≠ q) by (intros <-; apply Hin; rewrite elem_of_app; by left).
    rewrite bool_decide_eq_false_2 by done. by apply inv_gone0.
Qed.

Lemma callback_events_counts p q b result :
  count (is_new q) (map (pair Caller) (callback_events p b result)) = 0%nat /\
  count (is_execute q) (map (pair Caller) (callback_events p b result)) = 0%nat /\
  count (is_delete q) (map (pair Caller) (callback_events p b result)) = 0%nat /\
  count (is_call q) (map (pair Caller) (callback_events p b result))
  = (if bool_decide (is_Some (callback b) /\ p = q) then 1 else 0)%nat.
Proof.
  unfold callback_events. destruct (callback b) as [f|].
  - assert (E : bool_decide (is_Some (Some f) /\ p = q) = bool_decide (p = q)).
    { apply bool_decide_ext. split; [tauto|]. intros ->. split; [by eexists|done]. }
    rewrite E.
    destruct (Function_Call _ _); simpl; count_step; repeat split; try done;
      by destruct (bool_decide _).
  - rewrite bool_decide_eq_false_2 by (intros [[? ?] _]; done). done.
Qed.

Lemma after_events_counts p q b :
  count (is_new q) (map (pair Caller) (after_events p b)) = 0%nat /\
  count (is_execute q) (map (pair Caller) (after_events p b)) = 0%nat /\
  count (is_delete q) (map (pair Caller) (after_events p b))
  = (if bool_decide (p = q) then 1 else 0)%nat /\
  count (is_call q) (map (pair Caller) (after_events p b))
  = (if bool_decide (is_Some (callback b) /\ p = q) then 1 else 0)%nat.
Proof.
  destruct (callback_events_counts p q b (after_result b)) as (Hn & Hx & Hd & Hc).
  assert (Hz : forall P, P = is_new q \/ P = is_execute q \/ P = is_delete q \/ P = is_call q ->
            count P (map (pair Caller)
                       match op b with
                       | PWrite l _ true => [EvDeleteBatch l]
                       | _ => []
                       end) = 0%nat).
  { intros P HP. destruct (op b) as [| |l o [|]|]; try done.
    destruct HP as [->|[->|[->| ->]]]; done. }
  unfold after_events. rewrite map_cons, map_app, !count_cons, !count_app.
  rewrite Hn, Hx, Hd, Hc, !Hz by tauto. simpl.
  repeat split; try done; lia.
Qed.

Lemma after_events_threads p b e : e ∈ after_events p b -> thread_of e = Caller.
Proof.
  unfold after_events, callback_events. rewrite elem_of_cons, elem_of_app.
  intros [->|[Hin|Hin]]; [done| |].
  - destruct (op b) as [| |l o [|]|]; try by apply elem_of_nil in Hin.
    by apply list_elem_of_singleton in Hin as ->.
  - destruct (callback b); [|by apply elem_of_nil in Hin].
    destruct (Function_Call _ _); repeat (apply elem_of_cons in Hin as [->|Hin]; [done|]);
      by apply elem_of_nil in Hin.
Qed.

Lemma complete_inv_fields p w w' :
  complete p w = Some w' ->
  exists b,
    p ∈ done_ w /\ params w !! p = Some b /\
    queue w' = queue w /\ done_ w' = without p (done_ w) /\
    params w' = delete p (params w) /\ refs w' = pred (refs w) /\
    ev_refs w' = pred (ev_refs w) /\ next_loc w' = next_loc w /\
    db w' = db w /\ env w' = env w /\
    batches w' = match op b with
                 | PWrite l _ true => delete l (batches w)
                 | _ => batches w
                 end /\
    trace w' = map (pair Caller) (after_events p b) ++ trace w.
Proof.
  unfold complete. case_bool_decide as Hd; [|done].
  destruct (params w !! p) as [b|] eqn:Hb; [|done].
  intros [= <-]. exists b.
  rewrite run_after_trace.
  destruct (run_after_fields p b
              (set_queues (queue (on_thread Caller w))
                 (without p (done_ (on_thread Caller w))) (on_thread Caller w)))
    as (H1&H2&H3&H4&H5&H6&H7&H8&H9&H10).
  simpl in *. rewrite H1, H2, H3, H4, H5, H6, H7, H8, H10. done.
Qed.

Lemma inv_complete p w w' : inv w -> complete p w = Some w' -> inv w'.
Proof.
  intros Hi Hc.
  destruct (complete_inv_fields _ _ _ Hc) as (b&Hd&Hb&Eq&Ed&Ep&Er&Ev&En&_&_&_&Et).
  pose proof (inv_nodup w Hi) as Hnd.
  pose proof Hnd as Hnd'.
  apply NoDup_app in Hnd' as (Hndq & Hdisj & Hndd).
  assert (Hperm : queue w ++ done_ w ≡ₚ p :: queue w ++ without p (done_ w)).
  { rewrite (without_perm p (done_ w)) at 1 by done. by rewrite <- Permutation_middle. }
  assert (Hnd2 : NoDup (p :: queue w ++ without p (done_ w))) by (by rewrite <- Hperm).
  apply NoDup_cons in Hnd2 as [Hpnot Hnd2].
  assert (Hcount : forall q,
    count (is_new q) (trace w') = count (is_new q) (trace w) /\
    count (is_execute q) (trace w') = count (is_execute q) (trace w) /\
    count (is_delete q) (trace w')
    = ((if bool_decide (p = q) then 1 else 0) + count (is_delete q) (trace w))%nat /\
    count (is_call q) (trace w')
    = ((if bool_decide (is_Some (callback b) /\ p = q) then 1 else 0)
       + count (is_call q) (trace w))%nat).
  { intros q. rewrite Et, !count_app.
    destruct (after_events_counts p q b) as (-> & -> & -> & ->). done. }
  destruct Hi. constructor; rewrite ?Eq, ?Ed, ?Ep, ?Er, ?Ev, ?En.
  - rewrite inv_refs0, Hperm. done.
  - rewrite inv_ev_refs0, Hperm. done.
  - done.
  - intros q. rewrite lookup_delete_is_Some, <- inv_live0, Hperm, elem_of_cons.
    split; [|intuition congruence]. intros Hin. split; [|by right]. by intros ->.
  - intros q. rewrite lookup_delete_is_Some. intros [_ Hs]. by apply inv_bound0.
  - intros q c Hq. assert (p ≠ q) by (intros <-; apply Hpnot; rewrite elem_of_app; by left).
    rewrite lookup_delete_ne by done. by apply inv_fresh0.
  - intros t e. rewrite Et, elem_of_app, list_elem_of_fmap.
    intros [(e' & [= -> ->] & Hin)|Hin]; [|by apply inv_threads0].
    symmetry. by eapply after_events_threads.
  - intros q Hq. destruct (Hcount q) as (-> & _). by apply inv_unborn0.
  - intros q Hq. assert (p ≠ q) by (intros <-; apply Hpnot; rewrite elem_of_app; by left).
    destruct (Hcount q) as (-> & -> & -> & ->).
    rewrite !bool_decide_eq_false_2 by tauto. by apply inv_queued0.
  - intros q. rewrite elem_of_without. intros [Hne Hq].
    destruct (Hcount q) as (-> & -> & -> & ->).
    rewrite !bool_decide_eq_false_2 by (intuition congruence). by apply inv_executed0.
  - intros q Hq. destruct (Hcount q) as (-> & -> & -> & ->).
    destruct (decide (p = q)) as [<-|Hne].
    + destruct (inv_executed0 p Hd) as (-> & -> & -> & ->).
      rewrite (bool_decide_eq_true_2 (p = p)) by done.
      destruct (bool_decide _); simpl; lia.
    + rewrite !bool_decide_eq_false_2 by tauto. apply inv_gone0.
      rewrite Hperm, not_elem_of_cons. split; [congruence|done].
Qed.

Lemma inv_invoke m args w r w' :
  inv w -> invoke m args (on_thread Caller w) = (r, w') -> inv w'.
Proof.
  intros Hi Hc. apply (inv_on_thread Caller) in Hi.
  destruct (invoke_shape _ _ _ _ _ Hc) as [->|(cb & o & Ho & [->|[b ->]])].
  - done.
  - by apply inv_dispatch.
  - apply inv_dispatch; [done|done|]. by apply inv_new_batch.
Qed.

Lemma inv_step a w w' : inv w -> step a w = Some w' -> inv w'.
Proof.
  intros Hi Hs. destruct a as [m args|b|p|p]; simpl in Hs.
  - destruct (invoke m args (on_thread Caller w)) as [r w1] eqn:Hc.
    assert (w1 = w') by (destruct r; congruence). subst w1.
    by eapply inv_invoke.
  - injection Hs as <-. apply (inv_new_batch b (on_thread Caller w)).
    by apply inv_on_thread.
  - by eapply inv_execute.
  - by eapply inv_complete.
Qed.

Lemma reachable_inv w : reachable w -> inv w.
Proof.
  induction 1 as [e|a w w' _ IH Hs]; [apply inv_initial|by eapply inv_step].
Qed.

Lemma run_cons a acts w :
  run (a :: acts) w = match step a w with
                      | Some w' => run acts w'
                      | None => None
                      end.
Proof. reflexivity. Qed.

Lemma run_reachable acts w w' : reachable w -> run acts w = Some w' -> reachable w'.
Proof.
  revert w. induction acts as [|a acts IH]; simpl; intros w Hr E.
  - congruence.
  - destruct (step a w) as [w1|] eqn:Hs; [|done].
    eapply IH; [|done]. by eapply reachable_step.
Qed.

(** ** Calls received by a callback *)

Lemma calls_of_app p tr1 tr2 : calls_of p (tr1 ++ tr2) = calls_of p tr1 ++ calls_of p tr2.
Proof. apply omap_app. Qed.

Lemma fatals_of_app p tr1 tr2 :
  fatals_of p (tr1 ++ tr2) = fatals_of p tr1 ++ fatals_of p tr2.
Proof. apply omap_app. Qed.

Lemma count_calls p tr : count (is_call p) tr = length (calls_of p tr).
Proof.
  induction tr as [|[t e] tr IH]; [done|]. rewrite count_cons, IH.
  unfold calls_of. simpl. destruct e; simpl; try done.
  by destruct (bool_decide _).
Qed.

Lemma no_calls p tr : count (is_call p) tr = 0%nat -> calls_of p tr = [].
Proof. rewrite count_calls. by destruct (calls_of p tr). Qed.

Lemma after_events_calls p b :
  calls_of p (map (pair Caller) (after_events p b))
  = match callback b with
    | Some f => [(f, callback_argv (status b) (after_result b))]
    | None => []
    end.
Proof.
  unfold after_events, callback_events, calls_of. simpl.
  rewrite map_app, omap_app.
  replace (omap _ (map (pair Caller) match op b with
                                     | PWrite l _ true => [EvDeleteBatch l]
                                     | _ => []
                                     end)) with (@nil (nat * list JsValue))
    by (by destruct (op b) as [| |l o [|]|]).
  destruct (callback b); [|done].
  destruct (Function_Call _ _); simpl; by rewrite bool_decide_eq_true_2.
Qed.

Lemma after_events_fatals p b :
  fatals_of p (map (pair Caller) (after_events p b))
  = match callback b with
    | Some f =>
      match Function_Call f (callback_argv (status b) (after_result b)) with
      | Some e => [e]
      | None => []
      end
    | None => []
    end.
Proof.
  unfold after_events, callback_events, fatals_of. simpl.
  rewrite map_app, omap_app.
  replace (omap _ (map (pair Caller) match op b with
                                     | PWrite l _ true => [EvDeleteBatch l]
                                     | _ => []
                                     end)) with (@nil JsValue)
    by (by destruct (op b) as [| |l o [|]|]).
  destruct (callback b); [|done].
  destruct (Function_Call _ _); simpl; by rewrite ?bool_decide_eq_true_2.
Qed.

(** ** The completion callback *)

Lemma complete_calls p w w' b f :
  complete p w = Some w' -> params w !! p = Some b -> callback b = Some f ->
  calls_of p (trace w')
  = (f, callback_argv (status b) (after_result b)) :: calls_of p (trace w).
Proof.
  intros Hc Hb Hf.
  destruct (complete_inv_fields _ _ _ Hc) as (b0 & _ & Hb0 & _ & _ & _ & _ & _ & _ & _ & _ & _ & Et).
  assert (b0 = b) by congruence. subst b0.
  by rewrite Et, calls_of_app, after_events_calls, Hf.
Qed.

(** C2: when a request with a callback completes, the callback is called
    exactly once, and its arguments are fixed by the outcome: none on
    success without a result, [(null, result)] on success with a result,
    [(null)] on not-found, and one error value carrying the text of the
    engine status on any other failure. *)
Theorem completion_callback_shapes p w w' b f :
  complete p w = Some w' -> params w !! p = Some b -> callback b = Some f ->
  exists argv,
    calls_of p (trace w') = (f, argv) :: calls_of p (trace w) /\
    match status b with
    | StOk =>
      match after_result b with
      | None => argv = []
      | Some payload => argv = [JsNull; payload]
      end
    | StErr kNotFound _ => argv = [JsNull]
    | StErr _ _ => argv = [JsExc Error (ToString (status b))]
    end.
Proof.
  intros Hc Hb Hf.
  exists (callback_argv (status b) (after_result b)). split.
  - by apply complete_calls.
  - unfold callback_argv. destruct (status b) as [|[] m]; simpl; try done.
    by destruct (after_result b).
Qed.

(** C7: an exception thrown by the completion callback is caught by the
    completion path and handed to [FatalException]; it is not dropped. *)
Theorem throwing_callback_is_fatal p w w' b f e :
  complete p w = Some w' -> params w !! p = Some b -> callback b = Some f ->
  Function_Call f (callback_argv (status b) (after_result b)) = Some e ->
  fatals_of p (trace w') = e :: fatals_of p (trace w) /\
  (Caller, EvFatal p e) ∈ trace w'.
Proof.
  intros Hc Hb Hf Hthrow.
  destruct (complete_inv_fields _ _ _ Hc) as (b0 & _ & Hb0 & _ & _ & _ & _ & _ & _ & _ & _ & _ & Et).
  assert (b0 = b) by congruence. subst b0. split.
  - by rewrite Et, fatals_of_app, after_events_fatals, Hf, Hthrow.
  - rewrite Et, elem_of_app. left. apply list_elem_of_fmap.
    exists (EvFatal p e). split; [done|].
    unfold after_events, callback_events. rewrite Hf, Hthrow.
    rewrite elem_of_cons, elem_of_app. right. right. apply elem_of_cons. by left.
Qed.

(** C10: the result a get hands to its callback is a text built from the
    bytes of the result; no call of the callback carries a byte buffer. *)
Theorem get_payload_is_text p w w' b f key options strings result :
  complete p w = Some w' -> params w !! p = Some b ->
  op b = PRead key options strings result -> callback b = Some f ->
  exists argv,
    calls_of p (trace w') = (f, argv) :: calls_of p (trace w) /\
    (status b = StOk -> argv = [JsNull; JsStr (Utf8.decode result)]) /\
    (forall x, x ∈ argv -> Buffer_HasInstance x = false).
Proof.
  intros Hc Hb Ho Hf.
  exists (callback_argv (status b) (after_result b)).
  split; [by apply complete_calls|].
  unfold callback_argv, after_result. rewrite Ho.
  destruct (status b) as [|c m]; simpl.
  - split; [done|]. intros x.
    rewrite !elem_of_cons. intros [->|[->|?%elem_of_nil]]; done.
  - split; [done|]. intros x. destruct c; simpl;
      rewrite elem_of_cons; intros [->|?%elem_of_nil]; done.
Qed.

(** ** Running one request *)

Lemma execute_some p w b b' w1 :
  p ∈ queue w -> params w !! p = Some b ->
  run_execute b (on_thread Worker w) = Some (b', w1) ->
  exists w', execute p w = Some w' /\ db w' = db w1 /\ env w' = env w1 /\
    params w' = <[p := b']> (params w) /\ queue w' = without p (queue w) /\
    done_ w' = done_ w ++ [p] /\ batches w' = batches w /\
    trace w' = (Worker, EvExecute p) :: trace w.
Proof.
  intros Hq Hb Hr.
  destruct (execute p w) as [w'|] eqn:He.
  - destruct (execute_inv_fields _ _ _ He)
      as (c&c'&w2&_&Hc&Hr'&Eq&Ed&Ep&_&_&_&Eb&Edb&Eenv&Et).
    assert (c = b) by congruence. subst c.
    rewrite Hr in Hr'. injection Hr' as <- <-.
    exists w'. by rewrite Edb, Eenv, Ep, Eq, Ed, Eb, Et.
  - unfold execute in He. rewrite bool_decide_eq_true_2, Hb, Hr in He by done. done.
Qed.

Lemma complete_some p w b :
  p ∈ done_ w -> params w !! p = Some b -> exists w', complete p w = Some w'.
Proof.
  intros Hd Hb. unfold complete. rewrite bool_decide_eq_true_2, Hb by done. by eexists.
Qed.

Lemma complete_once p w w' : complete p w = Some w' -> complete p w' = None.
Proof.
  intros Hc.
  destruct (complete_inv_fields _ _ _ Hc) as (b & _ & _ & _ & _ & Ep & _).
  unfold complete. case_bool_decide; [|done]. by rewrite Ep, lookup_delete_eq.
Qed.

Lemma complete_no_execute p w w' : complete p w = Some w' -> execute p w' = None.
Proof.
  intros Hc.
  destruct (complete_inv_fields _ _ _ Hc) as (b & _ & _ & _ & _ & Ep & _).
  unfold execute. case_bool_decide; [|done]. by rewrite Ep, lookup_delete_eq.
Qed.

(** ** The handle *)

(** C5: when the worker runs an open request while an engine instance is
    open, that instance is destroyed first and the open is attempted in
    the resulting environment; on success the handle is the new instance
    and the outcome is ok, on failure the handle is null and the outcome
    is the failure status. *)
Theorem open_replaces_engine p w b name options i0 r e2 :
  p ∈ queue w -> params w !! p = Some b -> op b = POpen name options ->
  db w = Some i0 ->
  ldb_Open options name (ldb_delete i0 (env w)) = (r, e2) ->
  exists w', execute p w = Some w' /\ env w' = e2 /\
    match r with
    | inl i => db w' = Some i /\ status <$> params w' !! p = Some StOk
    | inr (c, m) => db w' = None /\ status <$> params w' !! p = Some (StErr c m)
    end.
Proof.
  intros Hq Hb Ho Hdb Hopen.
  assert (Hr : exists b' w1, run_execute b (on_thread Worker w) = Some (b', w1) /\
               env w1 = e2 /\
               match r with
               | inl i => db w1 = Some i /\ status b' = StOk
               | inr (c, m) => db w1 = None /\ status b' = StErr c m
               end).
  { unfold run_execute, EIO_Open. rewrite Ho. simpl. rewrite Hdb, Hopen.
    destruct r as [i|[c m]]; eexists _, _; done. }
  destruct Hr as (b' & w1 & Hr & Henv & Hres).
  destruct (execute_some _ _ _ _ _ Hq Hb Hr) as (w' & He & Edb & Eenv & Ep & _).
  exists w'. rewrite Edb, Eenv, Ep, lookup_insert_eq. simpl.
  split; [done|]. split; [done|].
  destruct r as [i|[c m]]; destruct Hres as [-> ->]; done.
Qed.

(** C6: when the worker runs a close request, an open engine instance is
    destroyed and the handle becomes null; on a closed binding nothing
    changes; either way the request completes without an error: its
    callback, if any, is called once, with no argument. *)
Theorem close_releases_engine w p b :
  reachable w -> p ∈ queue w -> params w !! p = Some b -> op b = PClose ->
  exists w1 w2,
    execute p w = Some w1 /\ db w1 = None /\
    env w1 = match db w with
             | Some i => ldb_delete i (env w)
             | None => env w
             end /\
    complete p w1 = Some w2 /\ db w2 = None /\ env w2 = env w1 /\
    calls_of p (trace w2) = match callback b with
                            | Some f => [(f, [])]
                            | None => []
                            end.
Proof.
  intros Hreach Hq Hb Ho. pose proof (reachable_inv _ Hreach) as Hi.
  destruct (inv_fresh _ Hi _ _ Hq Hb) as [Hst _].
  destruct (inv_queued _ Hi _ Hq) as (_ & _ & Hcalls & _).
  apply no_calls in Hcalls.
  assert (Hr : exists w0, run_execute b (on_thread Worker w) = Some (b, w0) /\
               db w0 = None /\
               env w0 = match db w with
                        | Some i => ldb_delete i (env w)
                        | None => env w
                        end).
  { unfold run_execute, EIO_Close. rewrite Ho. simpl.
    destruct (db w) eqn:Hdb; eexists; done. }
  destruct Hr as (w0 & Hr & Hdb0 & Henv0).
  destruct (execute_some _ _ _ _ _ Hq Hb Hr) as (w1 & He & Edb & Eenv & Ep & _ & Ed & _ & Et).
  assert (Hb1 : params w1 !! p = Some b) by (by rewrite Ep, lookup_insert_eq).
  assert (Hd1 : p ∈ done_ w1) by (rewrite Ed, elem_of_app; right; by apply list_elem_of_singleton).
  destruct (complete_some _ _ _ Hd1 Hb1) as (w2 & Hc).
  destruct (complete_inv_fields _ _ _ Hc)
    as (b2 & _ & Hb2 & _ & _ & _ & _ & _ & _ & Edb2 & Eenv2 & _ & Et2).
  assert (b2 = b) by congruence. subst b2.
  exists w1, w2. rewrite Edb2, Eenv2, Edb, Eenv.
  repeat split; try done.
  rewrite Et2, calls_of_app, after_events_calls, Et. simpl.
  change (calls_of p ((Worker, EvExecute p) :: trace w)) with (calls_of p (trace w)).
  rewrite Hcalls, app_nil_r.
  destruct (callback b); [|done].
  unfold callback_argv, after_result. by rewrite Hst, Ho.
Qed.

(** ** A worker that finds the handle null *)

(** C3: when the worker runs a get or a write while the handle is null,
    it leaves the bundle as it was dispatched (status ok, empty result)
    and the engine untouched; the request then completes: executed once,
    its callback called once with the arguments of a success, its bundle
    destroyed once, and neither step can happen a second time. *)
Theorem null_handle_request_completes w p b :
  reachable w -> db w = None -> p ∈ queue w -> params w !! p = Some b ->
  match op b with
  | PRead _ _ _ _ | PWrite _ _ _ => True
  | _ => False
  end ->
  exists w1 w2,
    execute p w = Some w1 /\ params w1 !! p = Some b /\
    status b = StOk /\
    match op b with PRead _ _ _ result => result = [] | _ => True end /\
    db w1 = None /\ env w1 = env w /\
    complete p w1 = Some w2 /\
    calls_of p (trace w2)
    = match callback b with
      | Some f => [(f, match op b with
                       | PRead _ _ _ _ => [JsNull; JsStr []]
                       | _ => []
                       end)]
      | None => []
      end /\
    count (is_execute p) (trace w2) = 1%nat /\
    count (is_delete p) (trace w2) = 1%nat /\
    execute p w2 = None /\ complete p w2 = None.
Proof.
  intros Hreach Hdb Hq Hb Hop. pose proof (reachable_inv _ Hreach) as Hi.
  destruct (inv_fresh _ Hi _ _ Hq Hb) as [Hst Hfresh].
  destruct (inv_queued _ Hi _ Hq) as (_ & Hx & Hcalls & Hdel).
  assert (Hr : run_execute b (on_thread Worker w) = Some (b, on_thread Worker w)).
  { unfold run_execute, EIO_Write, EIO_Read.
    destruct (op b); try done; simpl; by rewrite Hdb. }
  destruct (execute_some _ _ _ _ _ Hq Hb Hr) as (w1 & He & Edb & Eenv & Ep & _ & Ed & _ & Et).
  assert (Hb1 : params w1 !! p = Some b) by (by rewrite Ep, lookup_insert_eq).
  assert (Hd1 : p ∈ done_ w1) by (rewrite Ed, elem_of_app; right; by apply list_elem_of_singleton).
  destruct (complete_some _ _ _ Hd1 Hb1) as (w2 & Hc).
  destruct (complete_inv_fields _ _ _ Hc)
    as (b2 & _ & Hb2 & _ & _ & _ & _ & _ & _ & _ & _ & _ & Et2).
  assert (b2 = b) by congruence. subst b2.
  destruct (after_events_counts p p b) as (_ & Hax & Had & _).
  exists w1, w2. rewrite Edb, Eenv. simpl.
  repeat split; try done.
  - destruct (op b); try done. by eapply Hfresh.
  - rewrite Et2, calls_of_app, after_events_calls, Et.
    change (calls_of p ((Worker, EvExecute p) :: trace w)) with (calls_of p (trace w)).
    rewrite (no_calls _ _ Hcalls), app_nil_r.
    destruct (callback b); [|done].
    unfold callback_argv, after_result. rewrite Hst. simpl.
    destruct (op b) as [| | |k o ss r] eqn:Eo; try done.
    by rewrite (Hfresh k o ss r eq_refl).
  - rewrite Et2, Et, count_app, count_cons, Hax, Hx. simpl.
    by rewrite bool_decide_eq_true_2.
  - rewrite Et2, Et, count_app, count_cons, Had, Hdel. simpl.
    by rewrite bool_decide_eq_true_2.
  - by eapply complete_no_execute.
  - by eapply complete_once.
Qed.

(** ** The order of the events of a request *)

Lemma history_cons p e tr :
  history p (e :: tr) = if about p e then e.2 :: history p tr else history p tr.
Proof.
  unfold history. rewrite filter_cons.
  destruct (decide (about p e = true)) as [E|E].
  - by rewrite E.
  - by destruct (about p e).
Qed.

Lemma history_app p tr1 tr2 : history p (tr1 ++ tr2) = history p tr1 ++ history p tr2.
Proof. unfold history. by rewrite filter_app, fmap_app. Qed.

Lemma history_callback_events p q t b r :
  history q (map (pair t) (callback_events p b r))
  = if bool_decide (p = q) then callback_events p b r else [].
Proof.
  unfold callback_events. destruct (callback b); [|by case_bool_decide].
  destruct (Function_Call _ _); simpl; rewrite !history_cons; simpl;
    case_bool_decide; done.
Qed.

Lemma history_after_events p q t b :
  history q (map (pair t) (after_events p b))
  = if bool_decide (p = q)
    then EvDeleteParams p :: callback_events p b (after_result b)
    else [].
Proof.
  unfold after_events. rewrite map_cons, history_cons, map_app, history_app.
  rewrite history_callback_events. simpl.
  assert (Hb : history q (map (pair t) match op b with
                                       | PWrite l _ true => [EvDeleteBatch l]
                                       | _ => []
                                       end) = []).
  { destruct (op b) as [| |l o [|]|]; done. }
  rewrite Hb. simpl. by case_bool_decide.
Qed.

Lemma lives_ok_initial e : lives_ok (initial e).
Proof.
  split; simpl.
  - done.
  - intros p Hp. by apply elem_of_nil in Hp.
  - intros p Hp. by apply elem_of_nil in Hp.
  - intros p _. by left.
Qed.

Lemma lives_ok_same w w' :
  trace w' = trace w -> queue w' = queue w -> done_ w' = done_ w ->
  (next_loc w <= next_loc w')%nat ->
  lives_ok w -> lives_ok w'.
Proof.
  intros Et Eq Ed Hn [H1 H2 H3 H4]. split; rewrite Et, ?Eq, ?Ed; try done.
  intros p Hp. apply H1. lia.
Qed.

Lemma lives_ok_dispatch cb o w :
  inv w -> lives_ok w -> lives_ok (dispatch cb o w).
Proof.
  intros Hi [H1 H2 H3 H4].
  assert (Hlt : forall p, p ∈ queue w ++ done_ w -> (p < next_loc w)%nat).
  { intros p Hp. apply (inv_bound _ Hi). by apply (inv_live _ Hi). }
  assert (Hother : forall p, p ≠ next_loc w ->
            history p (trace (dispatch cb o w)) = history p (trace w)).
  { intros p Hp. unfold dispatch. simpl. rewrite !history_cons. simpl.
    by rewrite bool_decide_eq_false_2 by done. }
  split.
  - intros p Hp. simpl in Hp. rewrite Hother by lia. apply H1. lia.
  - intros p Hp. unfold dispatch in Hp. simpl in Hp.
    apply elem_of_app in Hp as [Hp|Hp%list_elem_of_singleton].
    + rewrite Hother; [by apply H2|].
      assert (p < next_loc w)%nat by (apply Hlt, elem_of_app; by left). lia.
    + subst p. unfold dispatch. simpl. rewrite !history_cons. simpl.
      rewrite bool_decide_eq_true_2 by done. by rewrite H1.
  - intros p Hp. unfold dispatch in Hp. simpl in Hp.
    rewrite Hother; [by apply H3|].
    assert (p < next_loc w)%nat by (apply Hlt, elem_of_app; by right). lia.
  - intros p Hp. unfold dispatch in Hp. simpl in Hp.
    assert (p ≠ next_loc w).
    { intros ->. apply Hp. rewrite !elem_of_app. left. right.
      by apply list_elem_of_singleton. }
    rewrite Hother by done. apply H4. rewrite !elem_of_app in *. tauto.
Qed.

Lemma lives_ok_execute p w w' :
  inv w -> lives_ok w -> execute p w = Some w' -> lives_ok w'.
Proof.
  intros Hi [H1 H2 H3 H4] He.
  destruct (execute_inv_fields _ _ _ He)
    as (b&b'&w1&Hq&Hb&_&Eq&Ed&_&_&_&En&_&_&_&Et).
  pose proof (inv_nodup _ Hi) as Hnd. apply NoDup_app in Hnd as (_ & Hdis & _).
  assert (Hlt : (p < next_loc w)%nat).
  { apply (inv_bound _ Hi), (inv_live _ Hi), elem_of_app. by left. }
  assert (Hother : forall q, q ≠ p -> history q (trace w') = history q (trace w)).
  { intros q Hq'. rewrite Et, history_cons. simpl.
    by rewrite bool_decide_eq_false_2 by done. }
  split.
  - intros q Hq'. rewrite En in Hq'. rewrite Hother by lia. by apply H1.
  - intros q Hq'. rewrite Eq in Hq'. apply elem_of_without in Hq' as [Hne Hq'].
    rewrite Hother by done. by apply H2.
  - intros q Hq'. rewrite Ed in Hq'.
    apply elem_of_app in Hq' as [Hq'|Hq'%list_elem_of_singleton].
    + rewrite Hother; [by apply H3|]. intros ->. by apply (Hdis p).
    + subst q. rewrite Et, history_cons. simpl.
      rewrite bool_decide_eq_true_2 by done. by rewrite H2.
  - intros q Hq'. rewrite Eq, Ed in Hq'.
    assert (q ≠ p).
    { intros ->. apply Hq'. rewrite !elem_of_app. right. right.
      by apply list_elem_of_singleton. }
    rewrite Hother by done. apply H4. intros Hin. apply Hq'.
    rewrite !elem_of_app in *. rewrite elem_of_without. tauto.
Qed.

Lemma lives_ok_complete p w w' :
  inv w -> lives_ok w -> complete p w = Some w' -> lives_ok w'.
Proof.
  intros Hi [H1 H2 H3 H4] Hc.
  destruct (complete_inv_fields _ _ _ Hc) as (b&Hd&Hb&Eq&Ed&_&_&_&En&_&_&_&Et).
  pose proof (inv_nodup _ Hi) as Hnd. apply NoDup_app in Hnd as (_ & Hdis & _).
  assert (Hother : forall q, q ≠ p -> history q (trace w') = history q (trace w)).
  { intros q Hq'. rewrite Et, history_app, history_after_events.
    by rewrite bool_decide_eq_false_2 by done. }
  assert (Hlt : (p < next_loc w)%nat).
  { apply (inv_bound _ Hi), (inv_live _ Hi), elem_of_app. by right. }
  split.
  - intros q Hq'. rewrite En in Hq'. rewrite Hother by lia. by apply H1.
  - intros q Hq'. rewrite Eq in Hq'.
    rewrite Hother; [by apply H2|]. intros ->. by apply (Hdis p).
  - intros q Hq'. rewrite Ed in Hq'. apply elem_of_without in Hq' as [Hne Hq'].
    rewrite Hother by done. by apply H3.
  - intros q Hq'. rewrite Eq, Ed in Hq'.
    destruct (decide (q = p)) as [->|Hne].
    + right. exists b. rewrite Et, history_app, history_after_events.
      rewrite bool_decide_eq_true_2 by done. by rewrite (H3 p Hd).
    + rewrite Hother by done. apply H4. intros Hin. apply Hq'.
      rewrite !elem_of_app in *. rewrite elem_of_without. tauto.
Qed.

Lemma lives_ok_step a w w' : inv w -> lives_ok w -> step a w = Some w' -> lives_ok w'.
Proof.
  intros Hi Hl Hs. destruct a as [m args|b|p|p]; simpl in Hs.
  - destruct (invoke m args (on_thread Caller w)) as [r w1] eqn:Hc.
    assert (w1 = w') by (destruct r; congruence). subst w1.
    assert (Hl' : lives_ok (on_thread Caller w)) by (by apply (lives_ok_same w)).
    apply (inv_on_thread Caller) in Hi.
    destruct (invoke_shape _ _ _ _ _ Hc) as [->|(cb & o & Ho & [->|[b ->]])].
    + done.
    + by apply lives_ok_dispatch.
    + apply lives_ok_dispatch; [by apply inv_new_batch|].
      apply (lives_ok_same (on_thread Caller w)); simpl; try done. lia.
  - injection Hs as <-. apply (lives_ok_same w); simpl; try done. lia.
  - by eapply lives_ok_execute.
  - by eapply lives_ok_complete.
Qed.

Lemma reachable_lives_ok w : reachable w -> lives_ok w.
Proof.
  induction 1 as [e|a w w' Hr IH Hs]; [apply lives_ok_initial|].
  eapply lives_ok_step; [by apply reachable_inv|done|done].
Qed.

(** The after function is the callback, the batch, then [delete params]. *)
Lemma run_after_before_delete p b w :
  run_after p b w = delete_Params p (before_delete p b w).
Proof.
  unfold run_after, before_delete, after_result.
  destruct (op b) as [| |l o [|]|]; reflexivity.
Qed.

Lemma before_delete_fields p b w :
  let w1 := before_delete p b w in
  refs w1 = refs w /\ ev_refs w1 = ev_refs w /\ params w1 = params w /\
  history p (trace w1) = callback_events p b (after_result b) ++ history p (trace w).
Proof.
  pose proof (Callback_fields p b (after_result b) w) as (_&_&Hr&Hv&Hp&_).
  pose proof (Callback_trace p b (after_result b) w) as Ht.
  assert (Hh : history p (trace (Callback p b (after_result b) w))
               = callback_events p b (after_result b) ++ history p (trace w)).
  { rewrite Ht, history_app, history_callback_events.
    by rewrite bool_decide_eq_true_2 by done. }
  unfold before_delete.
  destruct (op b) as [| |l o [|]|]; done.
Qed.

(** ** Reference counting *)

(** C8: in every reachable state the binding object and the event loop
    each hold exactly one reference per request in flight; a request in
    flight has a bundle that was constructed once and not destroyed; a
    request not in flight had its bundle destroyed as often as constructed,
    at most once; bundles are constructed and destroyed on the caller
    thread only; executing a request changes no count and completing it
    gives back exactly one reference of each kind.  The order is that of the
    code: the events of a request in flight are its construction, its
    submission and then its execution, and nothing else; those of a request
    that is gone end with the call of its callback (and the report of its
    exception) followed by the destruction of its bundle, which comes
    last; the after function runs the callback first, in a state where
    both references are still held and the bundle is still allocated, and
    the references are given back by the [delete params] that follows. *)
Theorem reference_counting_discipline w :
  reachable w ->
  refs w = length (queue w ++ done_ w) /\
  ev_refs w = length (queue w ++ done_ w) /\
  NoDup (queue w ++ done_ w) /\
  (forall p, p ∈ queue w ++ done_ w <-> is_Some (params w !! p)) /\
  (forall p, p ∈ queue w ++ done_ w ->
     count (is_new p) (trace w) = 1%nat /\ count (is_delete p) (trace w) = 0%nat) /\
  (forall p, p ∉ queue w ++ done_ w ->
     (count (is_new p) (trace w) <= 1)%nat /\
     count (is_delete p) (trace w) = count (is_new p) (trace w)) /\
  (forall t p, (t, EvNewParams p) ∈ trace w \/ (t, EvDeleteParams p) ∈ trace w ->
     t = Caller) /\
  (forall p w', execute p w = Some w' -> refs w' = refs w /\ ev_refs w' = ev_refs w) /\
  (forall p w', complete p w = Some w' ->
     S (refs w') = refs w /\ S (ev_refs w') = ev_refs w /\ params w' !! p = None) /\
  (forall p,
     (p ∈ queue w -> history p (trace w) = [EvSubmit p; EvNewParams p]) /\
     (p ∈ done_ w -> history p (trace w) = [EvExecute p; EvSubmit p; EvNewParams p]) /\
     (p ∉ queue w ++ done_ w ->
        history p (trace w) = [] \/
        exists b, history p (trace w)
                  = EvDeleteParams p :: callback_events p b (after_result b)
                    ++ [EvExecute p; EvSubmit p; EvNewParams p])) /\
  (forall p w', complete p w = Some w' ->
     exists b w1,
       params w !! p = Some b /\
       history p (trace w1) = callback_events p b (after_result b) ++ history p (trace w) /\
       refs w1 = refs w /\ ev_refs w1 = ev_refs w /\ params w1 !! p = Some b /\
       w' = delete_Params p w1).
Proof.
  intros Hreach. pose proof (reachable_inv _ Hreach) as Hi.
  pose proof (reachable_lives_ok _ Hreach) as Hl.
  split; [apply Hi|]. split; [apply Hi|]. split; [apply Hi|]. split; [apply Hi|].
  split; [|split; [|split; [|split; [|split; [|split]]]]].
  - intros p [Hq|Hd]%elem_of_app.
    + destruct (inv_queued _ Hi _ Hq) as (Hn & _ & _ & Hdel). by split.
    + destruct (inv_executed _ Hi _ Hd) as (Hn & _ & _ & Hdel). by split.
  - intros p Hp. destruct (inv_gone _ Hi _ Hp) as (Hn & _ & _ & Hdel). by split.
  - intros t p [Hin|Hin]; by apply (inv_threads _ Hi) in Hin.
  - intros p w' He.
    destruct (execute_inv_fields _ _ _ He) as (?&?&?&_&_&_&_&_&_&Er&Ev&_). by split.
  - intros p w' Hc.
    destruct (complete_inv_fields _ _ _ Hc) as (b&Hd&_&_&_&Ep&Er&Ev&_).
    assert (Hin : p ∈ queue w ++ done_ w) by (rewrite elem_of_app; by right).
    rewrite Er, Ev, Ep, (inv_refs _ Hi), (inv_ev_refs _ Hi), lookup_delete_eq.
    destruct (queue w ++ done_ w); [by apply elem_of_nil in Hin|done].
  - intros p. split; [apply Hl|]. split; [apply Hl|apply Hl].
  - intros p w' Hc. unfold complete in Hc.
    case_bool_decide as Hd; [|done].
    destruct (params w !! p) as [b|] eqn:Hb; [|done].
    injection Hc as <-. rewrite run_after_before_delete.
    set (w0 := set_queues _ _ _).
    exists b, (before_delete p b w0).
    destruct (before_delete_fields p b w0) as (Hr & Hv & Hp & Hh).
    split; [done|]. split; [exact Hh|]. split; [exact Hr|]. split; [exact Hv|].
    split; [|done]. by rewrite Hp.
Qed.

(** ** Calls on a closed binding *)

(** C1 (as amended): on a closed binding put, del and write throw the
    not-opened error whatever their arguments; get throws it when its key
    argument is a text or a buffer, and the argument error otherwise; in
    each case, and for newIterator as well, the binding is left as it was:
    no bundle is built and nothing is submitted. *)
Theorem closed_handle_rejects_before_dispatch m args w :
  db w = None ->
  match m with
  | m_put | m_del | m_write => invoke m args w = (Threw not_opened, w)
  | m_get =>
    invoke m args w
    = (Threw (if (1 <=? length args)%nat && is_key (arg args 0) then not_opened
              else JsExc TypeError "DB.get() expects key"), w)
  | m_newIterator => (invoke m args w).2 = w
  | _ => True
  end.
Proof.
  intros Hdb. destruct m; simpl; try done.
  - unfold DB_Put. by rewrite Hdb.
  - unfold DB_Del. by rewrite Hdb.
  - unfold DB_Write. by rewrite Hdb.
  - unfold DB_Get. rewrite Hdb.
    destruct args as [|a args]; [done|]. simpl.
    by destruct (is_key _).
  - unfold DB_NewIterator. rewrite Hdb. by destruct (negb _).
Qed.

(** The missing check of [DB::NewIterator]: on a closed binding a call
    with an object argument goes through the null handle. *)
Lemma NewIterator_null_handle a w :
  db w = None -> IsObject a = true -> DB_NewIterator [a] w = (Faulted, w).
Proof. intros Hdb Ha. unfold DB_NewIterator. simpl. unfold arg. simpl. by rewrite Ha, Hdb. Qed.

(** ** The write path *)

Lemma JsToSlice_owned k ss :
  is_key k = true ->
  JsToSlice k (Some ss) = (bytes_of k, Some (ss ++ owned_copies [k])).
Proof. destruct k; try done. intros _. simpl. by rewrite app_nil_r. Qed.

Lemma set_dispose_dispatch l o cb w :
  set_disposeWriteBatch (next_loc w) true
    (EIO_BeforeWrite (next_loc w) (new_WriteParams l o cb w).2)
  = dispatch cb (PWrite l o true) w.
Proof.
  unfold EIO_BeforeWrite. rewrite set_dispose_eio, put_bundle. reflexivity.
Qed.

Lemma write_owned_dispatch i b rest w :
  db w = Some i ->
  write_owned b rest w
  = (Returned JsDB,
     dispatch (optional_callback rest (optional_options JsToWriteOptions rest 0).2)
       (PWrite (next_loc w) (optional_options JsToWriteOptions rest 0).1 true)
       (new_WriteBatch b w).2).
Proof.
  intros Hdb. unfold write_owned, DB_Write, arg. simpl. rewrite Hdb.
  rewrite optional_options_shift, optional_callback_shift. simpl.
  rewrite <- (set_dispose_dispatch _ _ _ (new_WriteBatch b w).2). reflexivity.
Qed.

Lemma DB_Put_dispatch i k v rest w :
  db w = Some i -> is_key k = true -> is_key v = true ->
  DB_Put (k :: v :: rest) w
  = (Returned JsDB,
     dispatch (optional_callback rest (optional_options JsToWriteOptions rest 0).2)
       (PWrite (next_loc w) (optional_options JsToWriteOptions rest 0).1 true)
       (new_WriteBatch (single_put k v) w).2).
Proof.
  intros Hdb Hk Hv. unfold DB_Put, arg. rewrite Hdb. simpl. rewrite Hk, Hv. simpl.
  rewrite (JsToSlice_owned k []), (JsToSlice_owned v) by done. simpl.
  rewrite !optional_options_shift, !optional_callback_shift. simpl.
  rewrite <- (set_dispose_dispatch _ _ _ (new_WriteBatch (single_put k v) w).2).
  destruct k; try done; destruct v; try done.
Qed.

Lemma DB_Del_dispatch i k rest w :
  db w = Some i -> is_key k = true ->
  DB_Del (k :: rest) w
  = (Returned JsDB,
     dispatch (optional_callback rest (optional_options JsToWriteOptions rest 0).2)
       (PWrite (next_loc w) (optional_options JsToWriteOptions rest 0).1 true)
       (new_WriteBatch (single_delete k) w).2).
Proof.
  intros Hdb Hk. unfold DB_Del, arg. rewrite Hdb. simpl. rewrite Hk. simpl.
  rewrite (JsToSlice_owned k []) by done. simpl.
  rewrite !optional_options_shift, !optional_callback_shift. simpl.
  rewrite <- (set_dispose_dispatch _ _ _ (new_WriteBatch (single_delete k) w).2).
  destruct k; try done.
Qed.

Lemma DB_Write_dispatch i l rest w :
  db w = Some i ->
  DB_Write (JsBatchObj l :: rest) w
  = (Returned JsDB,
     dispatch (optional_callback rest (optional_options JsToWriteOptions rest 0).2)
       (PWrite l (optional_options JsToWriteOptions rest 0).1 false) w).
Proof.
  intros Hdb. unfold DB_Write, arg. simpl. rewrite Hdb.
  rewrite optional_options_shift, optional_callback_shift. reflexivity.
Qed.

(** The worker leaves the specific part of a write bundle as it is. *)
Lemma execute_keeps_write p q w w' b l o d :
  execute p w = Some w' -> params w !! q = Some b -> op b = PWrite l o d ->
  exists b', params w' !! q = Some b' /\ op b' = PWrite l o d.
Proof.
  intros He Hb Ho.
  destruct (execute_inv_fields _ _ _ He) as (c&c'&w1&_&Hc&Hr&_&_&Ep&_).
  rewrite Ep. destruct (decide (p = q)) as [<-|Hne].
  - rewrite lookup_insert_eq. exists c'. split; [done|].
    assert (c = b) by congruence. subst c.
    unfold run_execute in Hr. rewrite Ho in Hr. unfold EIO_Write in Hr.
    destruct (db _); [|by injection Hr as <- _].
    destruct (batches _ !! l); [|done].
    destruct (ldb_Write _ _ _ _). by injection Hr as <- _.
  - rewrite lookup_insert_ne by done. by exists b.
Qed.

(** C4: on an open binding, put is the specification's sugar (a fresh
    single-entry batch, owned by the operation, submitted through the path
    of write) and so is del; the bundle of a put owns its batch and the
    bundle of a write does not; the worker keeps that mark; completing a
    request destroys the batch exactly when its bundle owns it. *)
Theorem put_and_del_are_write_sugar i k v rest w :
  db w = Some i -> is_key k = true -> is_key v = true ->
  DB_Put (k :: v :: rest) w = spec_put k v rest w /\
  DB_Del (k :: rest) w = spec_del k rest w /\
  (exists w' o,
     DB_Put (k :: v :: rest) w = (Returned JsDB, w') /\
     op <$> params w' !! S (next_loc w) = Some (PWrite (next_loc w) o true) /\
     wb <$> batches w' !! next_loc w = Some [BPut (bytes_of k) (bytes_of v)] /\
     S (next_loc w) ∈ queue w') /\
  (forall l, exists w' o,
     DB_Write (JsBatchObj l :: rest) w = (Returned JsDB, w') /\
     op <$> params w' !! next_loc w = Some (PWrite l o false) /\
     next_loc w ∈ queue w') /\
  (forall p q w1 w2 b l o d,
     execute p w1 = Some w2 -> params w1 !! q = Some b -> op b = PWrite l o d ->
     exists b', params w2 !! q = Some b' /\ op b' = PWrite l o d) /\
  (forall p w1 w2 b l o d,
     complete p w1 = Some w2 -> params w1 !! p = Some b -> op b = PWrite l o d ->
     if d then batches w2 !! l = None /\ (Caller, EvDeleteBatch l) ∈ trace w2
     else batches w2 = batches w1).
Proof.
  intros Hdb Hk Hv. repeat split.
  - rewrite (DB_Put_dispatch i) by done. unfold spec_put.
    by rewrite (write_owned_dispatch i).
  - rewrite (DB_Del_dispatch i) by done. unfold spec_del.
    by rewrite (write_owned_dispatch i).
  - eexists _, _. rewrite (DB_Put_dispatch i) by done.
    split; [reflexivity|]. unfold dispatch. simpl.
    rewrite !lookup_insert_eq. simpl. repeat split.
    rewrite elem_of_app. right. by apply list_elem_of_singleton.
  - intros l. eexists _, _. rewrite (DB_Write_dispatch i) by done.
    split; [reflexivity|]. unfold dispatch. simpl.
    rewrite !lookup_insert_eq. simpl. repeat split.
    rewrite elem_of_app. right. by apply list_elem_of_singleton.
  - intros p q w1 w2 b l o d. apply execute_keeps_write.
  - intros p w1 w2 b l o d Hc Hb Ho.
    destruct (complete_inv_fields _ _ _ Hc) as (c&_&Hc'&_&_&_&_&_&_&_&_&Eb&Et).
    assert (c = b) by congruence. subst c. rewrite Ho in Eb.
    destruct d; [|done]. split; [by rewrite Eb, lookup_delete_eq|].
    rewrite Et, elem_of_app. left. apply list_elem_of_fmap.
    exists (EvDeleteBatch l). split; [done|].
    unfold after_events. rewrite Ho, elem_of_cons, elem_of_app.
    right. left. by apply list_elem_of_singleton.
Qed.

(** ** The read path *)

Lemma execute_next_loc p w w' : execute p w = Some w' -> next_loc w' = next_loc w.
Proof.
  intros He. by destruct (execute_inv_fields _ _ _ He) as (?&?&?&_&_&_&_&_&_&_&_&?&_).
Qed.

Lemma DB_Get_dispatch i k cb w :
  db w = Some i -> is_key k = true ->
  exists strings,
    DB_Get [k; JsFun cb] w
    = (Returned JsDB, dispatch (Some cb) (PRead (bytes_of k) DefaultOpts strings []) w).
Proof.
  intros Hdb Hk. unfold DB_Get, arg. simpl. rewrite Hk, Hdb. simpl.
  destruct k; try done; simpl; eexists; reflexivity.
Qed.

(** C9 (as amended): on an open binding, with nothing else in between and
    an engine that reads back what a successful put wrote, put(k, v)
    followed by get(k, cb) calls [cb] once, with [null] and the text
    decoded from the bytes of [v]; that text is [v] itself when [v] is a
    text made of Unicode scalar values. *)
Theorem put_then_get_delivers_text i w k v cb e1 :
  read_your_write ->
  db w = Some i -> is_key k = true -> is_key v = true ->
  ldb_Write i DefaultOpts [BPut (bytes_of k) (bytes_of v)] (env w) = (StOk, e1) ->
  exists w',
    put_then_get k v cb w = Some w' /\
    calls_of (S (S (next_loc w))) (trace w')
    = (cb, [JsNull; JsStr (Utf8.decode (bytes_of v))])
        :: calls_of (S (S (next_loc w))) (trace w) /\
    (forall s, v = JsStr s -> Forall Utf8.scalar s ->
       calls_of (S (S (next_loc w))) (trace w')
       = (cb, [JsNull; v]) :: calls_of (S (S (next_loc w))) (trace w)).
Proof.
  intros Hlaw Hdb Hk Hv Hwrite.
  set (l := next_loc w). set (p := S l). set (q := S p).
  (* put: dispatch *)
  set (b0 := {| callback := None; status := StOk; op := PWrite l DefaultOpts true |}).
  set (w1 := dispatch None (PWrite l DefaultOpts true)
               (new_WriteBatch (single_put k v) (on_thread Caller w)).2).
  assert (Hs1 : step (Invoke m_put [k; v]) w = Some w1).
  { simpl. rewrite (DB_Put_dispatch i) by done. reflexivity. }
  (* put: worker *)
  assert (Hq1 : p ∈ queue w1).
  { simpl. rewrite elem_of_app. right. by apply list_elem_of_singleton. }
  assert (Hb1 : params w1 !! p = Some b0) by (simpl; by rewrite lookup_insert_eq).
  assert (Hr1 : run_execute b0 (on_thread Worker w1)
                = Some (with_status StOk b0, set_engine (Some i) e1 (on_thread Worker w1))).
  { unfold run_execute, EIO_Write. simpl. rewrite Hdb, lookup_insert_eq. simpl.
    by rewrite Hwrite. }
  destruct (execute_some _ _ _ _ _ Hq1 Hb1 Hr1)
    as (w2 & Hs2 & Edb2 & Eenv2 & Ep2 & _ & Ed2 & _ & Et2).
  pose proof (execute_next_loc _ _ _ Hs2) as En2.
  (* put: completion *)
  assert (Hb2 : params w2 !! p = Some (with_status StOk b0))
    by (by rewrite Ep2, lookup_insert_eq).
  assert (Hd2 : p ∈ done_ w2)
    by (rewrite Ed2, elem_of_app; right; by apply list_elem_of_singleton).
  destruct (complete_some _ _ _ Hd2 Hb2) as (w3 & Hs3).
  destruct (complete_inv_fields _ _ _ Hs3)
    as (c & _ & Hc & _ & _ & _ & _ & _ & En3 & Edb3 & Eenv3 & _ & Et3).
  assert (c = with_status StOk b0) by congruence. subst c.
  (* get: dispatch *)
  assert (Hdb3 : db (on_thread Caller w3) = Some i) by (simpl; by rewrite Edb3, Edb2).
  destruct (DB_Get_dispatch i k cb (on_thread Caller w3) Hdb3 Hk) as (ss & Hget).
  set (b3 := {| callback := Some cb; status := StOk;
                op := PRead (bytes_of k) DefaultOpts ss [] |}).
  set (w4 := dispatch (Some cb) (PRead (bytes_of k) DefaultOpts ss []) (on_thread Caller w3)).
  assert (Hs4 : step (Invoke m_get [k; JsFun cb]) w3 = Some w4).
  { simpl. by rewrite Hget. }
  assert (Eq : next_loc w3 = q) by (by rewrite En3, En2).
  (* get: worker *)
  assert (Hq4 : q ∈ queue w4).
  { simpl. rewrite Eq, elem_of_app. right. by apply list_elem_of_singleton. }
  assert (Hb4 : params w4 !! q = Some b3) by (simpl; by rewrite Eq, lookup_insert_eq).
  assert (Hr4 : run_execute b3 (on_thread Worker w4)
                = Some (with_op (PRead (bytes_of k) DefaultOpts ss (bytes_of v))
                          (with_status StOk b3), on_thread Worker w4)).
  { unfold run_execute, EIO_Read. simpl. rewrite Edb3, Edb2, Eenv3, Eenv2. simpl.
    by rewrite (Hlaw _ _ DefaultOpts _ _ _ _ Hwrite). }
  destruct (execute_some _ _ _ _ _ Hq4 Hb4 Hr4)
    as (w5 & Hs5 & _ & _ & Ep5 & _ & Ed5 & _ & Et5).
  (* get: completion *)
  set (b5 := with_op (PRead (bytes_of k) DefaultOpts ss (bytes_of v)) (with_status StOk b3)).
  assert (Hb5 : params w5 !! q = Some b5) by (by rewrite Ep5, lookup_insert_eq).
  assert (Hd5 : q ∈ done_ w5)
    by (rewrite Ed5, elem_of_app; right; by apply list_elem_of_singleton).
  destruct (complete_some _ _ _ Hd5 Hb5) as (w6 & Hs6).
  pose proof (complete_calls _ _ _ _ cb Hs6 Hb5 eq_refl) as Hcalls.
  assert (Hold : calls_of q (trace w5) = calls_of q (trace w)).
  { rewrite Et5. simpl trace. rewrite Et3, Et2. unfold calls_of. simpl.
    reflexivity. }
  assert (Hfinal : calls_of q (trace w6)
                   = (cb, [JsNull; JsStr (Utf8.decode (bytes_of v))]) :: calls_of q (trace w)).
  { by rewrite Hcalls, Hold. }
  exists w6. split; [|split].
  - unfold put_then_get. fold l. fold p. fold q.
    rewrite run_cons, Hs1, run_cons; change (step (Execute p) w1) with (execute p w1).
    rewrite Hs2, run_cons; change (step (Complete p) w2) with (complete p w2).
    rewrite Hs3, run_cons, Hs4, run_cons; change (step (Execute q) w4) with (execute q w4).
    rewrite Hs5, run_cons; change (step (Complete q) w5) with (complete q w5).
    by rewrite Hs6.
  - done.
  - intros s -> Hs. rewrite Hfinal. simpl. by rewrite Utf8Facts.decode_encode.
Qed.

End Theory.

(** * The reference engine obeys the contract, and concrete instances *)

Lemma Reference_get_after_put (i : bytes) wo ro (k v : bytes) e e' :
  Reference.Write i wo [BPut k v] e = (StOk, e') -> Reference.Get i ro k e' = inl v.
Proof.
  unfold Reference.Write, Reference.Get.
  destruct (Reference.files e !! i) as [s|] eqn:Hs; [|done].
  intros [= <-]. simpl. rewrite lookup_insert_eq. simpl. by rewrite lookup_insert_eq.
Qed.

Lemma Reference_read_your_write : @read_your_write Reference.engine.
Proof. intros i wo ro k v e e'. apply Reference_get_after_put. Qed.

Section Instances.
Import Scenario.
#[local] Existing Instances Reference.engine Reference.host.

(** Both sides of an equation between concrete states are evaluated as
    terms; the engine, a parameter of their type, is left alone. *)
Ltac by_evaluation :=
  match goal with
  | |- ?l = ?r =>
    let l' := eval vm_compute in l in
    let r' := eval vm_compute in r in
    change (l' = r'); exact eq_refl
  end.

Lemma after_reachable acts : run acts closed = Some (after acts) -> reachable (after acts).
Proof. apply run_reachable. apply reachable_initial. Qed.

(** An open request completes with success: its callback is called with
    no argument. *)
Lemma completion_callback_shapes_witness :
  exists w' b,
    complete 0 open_executed = Some w' /\
    params open_executed !! 0 = Some b /\ callback b = Some 1 /\
    exists argv,
      calls_of 0 (trace w') = (1, argv) :: calls_of 0 (trace open_executed) /\
      argv = [].
Proof.
  set (w' := default open_executed (complete 0 open_executed)).
  set (b := {| callback := Some 1; status := StOk;
               op := POpen (bytes_of (text "db")) (OptsOf [("create_if_missing"%string, true)]) |}).
  assert (H1 : complete 0 open_executed = Some w') by by_evaluation.
  assert (H2 : params open_executed !! 0 = Some b) by by_evaluation.
  assert (H3 : callback b = Some 1) by reflexivity.
  exists w', b. split; [exact H1|]. split; [exact H2|]. split; [exact H3|].
  destruct (completion_callback_shapes 0 open_executed w' b 1 H1 H2 H3) as (argv & Hc & Hs).
  exists argv. split; [exact Hc|exact Hs].
Defined.

(** A close whose callback throws: the exception reaches [FatalException]. *)
Lemma throwing_callback_is_fatal_witness :
  exists w' b,
    complete 0 close_executed_throwing = Some w' /\
    params close_executed_throwing !! 0 = Some b /\ callback b = Some 0 /\
    Function_Call 0 (callback_argv (status b) (after_result b)) = Some Reference.thrown /\
    fatals_of 0 (trace w') = [Reference.thrown] /\
    (Caller, EvFatal 0 Reference.thrown) ∈ trace w'.
Proof.
  set (w' := default close_executed_throwing (complete 0 close_executed_throwing)).
  set (b := {| callback := Some 0; status := StOk; op := PClose |}).
  assert (H1 : complete 0 close_executed_throwing = Some w') by by_evaluation.
  assert (H2 : params close_executed_throwing !! 0 = Some b) by by_evaluation.
  assert (H3 : callback b = Some 0) by reflexivity.
  assert (H4 : Function_Call 0 (callback_argv (status b) (after_result b))
               = Some Reference.thrown) by reflexivity.
  exists w', b. split; [exact H1|]. split; [exact H2|]. split; [exact H3|].
  split; [exact H4|].
  exact (throwing_callback_is_fatal 0 close_executed_throwing w' b 0 Reference.thrown
           H1 H2 H3 H4).
Defined.

(** A get of a value stored from a buffer delivers a text. *)
Lemma get_payload_is_text_witness :
  exists w' b,
    complete 3 get_executed = Some w' /\
    params get_executed !! 3 = Some b /\
    op b = PRead [Byte.x6b] DefaultOpts None [Byte.x68; Byte.x69] /\
    callback b = Some 3 /\
    exists argv,
      calls_of 3 (trace w') = (3, argv) :: calls_of 3 (trace get_executed) /\
      (status b = StOk -> argv = [JsNull; JsStr (Utf8.decode [Byte.x68; Byte.x69])]) /\
      (forall x, x ∈ argv -> Buffer_HasInstance x = false).
Proof.
  set (w' := default get_executed (complete 3 get_executed)).
  set (b := {| callback := Some 3; status := StOk;
               op := PRead [Byte.x6b] DefaultOpts None [Byte.x68; Byte.x69] |}).
  assert (H1 : complete 3 get_executed = Some w') by by_evaluation.
  assert (H2 : params get_executed !! 3 = Some b) by by_evaluation.
  exists w', b. split; [exact H1|]. split; [exact H2|].
  split; [reflexivity|]. split; [reflexivity|].
  exact (get_payload_is_text 3 get_executed w' b 3 _ _ _ _ H1 H2 eq_refl eq_refl).
Defined.

(** A second open on the open binding: the first instance is released
    before the other path is opened, and the handle is the new instance. *)
Lemma open_replaces_engine_witness :
  exists b i0 e2 w',
    1 ∈ queue reopen_queued /\ params reopen_queued !! 1 = Some b /\
    op b = POpen (bytes_of (text "other")) (OptsOf [("create_if_missing"%string, true)]) /\
    db reopen_queued = Some i0 /\
    ldb_Open (OptsOf [("create_if_missing"%string, true)]) (bytes_of (text "other"))
      (ldb_delete i0 (env reopen_queued)) = (inl (bytes_of (text "other")), e2) /\
    execute 1 reopen_queued = Some w' /\ env w' = e2 /\
    db w' = Some (bytes_of (text "other")).
Proof.
  set (o := OptsOf [("create_if_missing"%string, true)]).
  set (name := bytes_of (text "other")).
  set (b := {| callback := None; status := StOk; op := POpen name o |}).
  set (i0 := the_db).
  set (e2 := (ldb_Open o name (ldb_delete i0 (env reopen_queued))).2).
  assert (H1 : 1 ∈ queue reopen_queued) by (vm_compute; apply list_elem_of_here).
  assert (H2 : params reopen_queued !! 1 = Some b) by by_evaluation.
  assert (H3 : op b = POpen name o) by reflexivity.
  assert (H4 : db reopen_queued = Some i0) by by_evaluation.
  assert (H5 : ldb_Open o name (ldb_delete i0 (env reopen_queued)) = (inl name, e2))
    by by_evaluation.
  destruct (open_replaces_engine 1 reopen_queued b name o i0 (inl name) e2 H1 H2 H3 H4 H5)
    as (w' & He & Henv & Hdb & _).
  exists b, i0, e2, w'.
  exact (conj H1 (conj H2 (conj H3 (conj H4 (conj H5 (conj He (conj Henv Hdb))))))).
Defined.

(** A close on the open binding. *)
Lemma close_releases_engine_witness :
  exists b w1 w2,
    reachable close_queued /\ 1 ∈ queue close_queued /\
    params close_queued !! 1 = Some b /\ op b = PClose /\
    execute 1 close_queued = Some w1 /\ db w1 = None /\
    complete 1 w1 = Some w2 /\ db w2 = None /\
    calls_of 1 (trace w2) = [(2, [])].
Proof.
  set (b := {| callback := Some 2; status := StOk; op := PClose |}).
  assert (H0 : reachable close_queued)
    by (apply after_reachable; by_evaluation).
  assert (H1 : 1 ∈ queue close_queued) by (vm_compute; apply list_elem_of_here).
  assert (H2 : params close_queued !! 1 = Some b) by by_evaluation.
  assert (H3 : op b = PClose) by reflexivity.
  destruct (close_releases_engine close_queued 1 b H0 H1 H2 H3)
    as (w1 & w2 & He & Hdb1 & _ & Hc & Hdb2 & _ & Hcalls).
  exists b, w1, w2.
  exact (conj H0 (conj H1 (conj H2 (conj H3 (conj He (conj Hdb1 (conj Hc (conj Hdb2 Hcalls)))))))).
Defined.

(** A get whose worker runs after the worker of a close. *)
Lemma null_handle_request_completes_witness :
  exists b w1 w2,
    reachable get_queued_after_close /\ db get_queued_after_close = None /\
    1 ∈ queue get_queued_after_close /\
    params get_queued_after_close !! 1 = Some b /\
    execute 1 get_queued_after_close = Some w1 /\ params w1 !! 1 = Some b /\
    complete 1 w1 = Some w2 /\
    calls_of 1 (trace w2) = [(3, [JsNull; JsStr []])] /\
    complete 1 w2 = None.
Proof.
  set (b := {| callback := Some 3; status := StOk;
               op := PRead [Byte.x6b] DefaultOpts (Some [[]; [Byte.x6b]]) [] |}).
  assert (H0 : reachable get_queued_after_close)
    by (apply after_reachable; by_evaluation).
  assert (H1 : db get_queued_after_close = None) by by_evaluation.
  assert (H2 : 1 ∈ queue get_queued_after_close) by (vm_compute; apply list_elem_of_here).
  assert (H3 : params get_queued_after_close !! 1 = Some b) by by_evaluation.
  destruct (null_handle_request_completes get_queued_after_close 1 b H0 H1 H2 H3 I)
    as (w1 & w2 & He & Hb & _ & _ & _ & _ & Hc & Hcalls & _ & _ & _ & Honce).
  exists b, w1, w2.
  exact (conj H0 (conj H1 (conj H2 (conj H3 (conj He (conj Hb (conj Hc (conj Hcalls Honce)))))))).
Defined.

(** Two requests in flight hold two references of each kind; the put in
    flight was constructed and then submitted; the open that is finished
    had its callback called before its bundle was destroyed. *)
Lemma reference_counting_discipline_witness :
  reachable two_in_flight /\
  refs two_in_flight = 2 /\ ev_refs two_in_flight = 2 /\
  length (queue two_in_flight ++ done_ two_in_flight) = 2 /\
  2 ∈ queue two_in_flight /\
  history 2 (trace two_in_flight) = [EvSubmit 2; EvNewParams 2] /\
  history 0 (trace two_in_flight)
  = [EvDeleteParams 0; EvCall 0 1 []; EvExecute 0; EvSubmit 0; EvNewParams 0].
Proof.
  assert (H0 : reachable two_in_flight)
    by (apply after_reachable; by_evaluation).
  destruct (reference_counting_discipline two_in_flight H0)
    as (Hr & He & _ & _ & _ & _ & _ & _ & _ & Hord & _).
  assert (Hl : length (queue two_in_flight ++ done_ two_in_flight) = 2)
    by by_evaluation.
  assert (Hq : 2 ∈ queue two_in_flight) by (vm_compute; apply list_elem_of_here).
  assert (Hh : history 0 (trace two_in_flight)
               = [EvDeleteParams 0; EvCall 0 1 []; EvExecute 0; EvSubmit 0; EvNewParams 0])
    by by_evaluation.
  exact (conj H0 (conj (eq_trans Hr Hl) (conj (eq_trans He Hl) (conj Hl
           (conj Hq (conj (proj1 (Hord 2) Hq) Hh)))))).
Defined.

(** On the closed binding put is rejected with the not-opened error. *)
Lemma closed_handle_rejects_before_dispatch_witness :
  db closed = None /\
  invoke m_put [text "k"; text "v"] closed = (Threw not_opened, closed).
Proof.
  assert (H0 : db closed = None) by reflexivity.
  split; [exact H0|].
  exact (closed_handle_rejects_before_dispatch m_put [text "k"; text "v"] closed H0).
Defined.

(** C1, as stated, fails: get without a key on the closed binding throws
    the argument error, not the not-opened error. *)
Lemma closed_get_without_key_counterexample :
  invoke m_get [] closed = (Threw (JsExc TypeError "DB.get() expects key"), closed) /\
  ~ closed_call_rejected m_get [] closed.
Proof.
  split; [reflexivity|]. unfold closed_call_rejected. simpl. unfold DB_Get. simpl.
  intros E. discriminate E.
Qed.

(** On the open binding put is the sugar of the specification. *)
Lemma put_and_del_are_write_sugar_witness :
  db opened = Some the_db /\
  is_key (text "k") = true /\ is_key (JsBuf [Byte.x76]) = true /\
  DB_Put [text "k"; JsBuf [Byte.x76]; JsFun 4] opened
  = spec_put (text "k") (JsBuf [Byte.x76]) [JsFun 4] opened /\
  DB_Del [text "k"; JsFun 4] opened = spec_del (text "k") [JsFun 4] opened.
Proof.
  assert (H0 : db opened = Some the_db) by by_evaluation.
  assert (H1 : is_key (text "k") = true) by reflexivity.
  assert (H2 : is_key (JsBuf [Byte.x76]) = true) by reflexivity.
  destruct (put_and_del_are_write_sugar the_db (text "k")
              (JsBuf [Byte.x76]) [JsFun 4] opened H0 H1 H2) as (Hput & Hdel & _).
  exact (conj H0 (conj H1 (conj H2 (conj Hput Hdel)))).
Defined.

(** A text value comes back as it was put. *)
Lemma put_then_get_delivers_text_witness :
  exists e1 w',
    read_your_write /\ db opened = Some the_db /\
    ldb_Write the_db DefaultOpts
      [BPut (bytes_of (text "k")) (bytes_of (text "v"))] (env opened) = (StOk, e1) /\
    Forall Utf8.scalar [118%N] /\
    put_then_get (text "k") (text "v") 3 opened = Some w' /\
    calls_of 3 (trace w') = [(3, [JsNull; text "v"])].
Proof.
  set (i := the_db).
  set (e1 := (ldb_Write i DefaultOpts
                [BPut (bytes_of (text "k")) (bytes_of (text "v"))] (env opened)).2).
  assert (H0 : db opened = Some i) by by_evaluation.
  assert (H1 : ldb_Write i DefaultOpts
                 [BPut (bytes_of (text "k")) (bytes_of (text "v"))] (env opened)
               = (StOk, e1)) by by_evaluation.
  assert (H2 : Forall Utf8.scalar [118%N]) by (repeat constructor; left; reflexivity).
  destruct (put_then_get_delivers_text i opened (text "k") (text "v") 3 e1
              Reference_read_your_write H0 eq_refl eq_refl H1) as (w' & Hrun & _ & Htext).
  exists e1, w'. split; [exact Reference_read_your_write|]. split; [exact H0|].
  split; [exact H1|]. split; [exact H2|]. split; [exact Hrun|].
  exact (Htext [118%N] eq_refl H2).
Defined.

(** C9, as stated, fails: a value put as the one-byte buffer [ff] comes
    back as a text, the replacement character, and no text has the bytes
    [ff]. *)
Lemma buffer_round_trip_counterexample :
  (exists w',
     put_then_get (text "k") (JsBuf [Byte.xff]) 3 opened = Some w' /\
     calls_of 3 (trace w') = [(3, [JsNull; JsStr [65533%N]])]) /\
  (forall s, bytes_of (JsStr s) ≠ bytes_of (JsBuf [Byte.xff])) /\
  ~ round_trip_bytes (text "k") (JsBuf [Byte.xff]) 3 opened.
Proof.
  assert (Hrun : exists w',
             put_then_get (text "k") (JsBuf [Byte.xff]) 3 opened = Some w' /\
             calls_of 3 (trace w') = [(3, [JsNull; JsStr [65533%N]])]).
  { eexists. split; by_evaluation. }
  assert (Hne : forall s, bytes_of (JsStr s) ≠ bytes_of (JsBuf [Byte.xff]))
    by (intros s; apply Utf8Facts.encode_not_ff).
  split; [exact Hrun|]. split; [exact Hne|].
  destruct Hrun as (w' & Hw' & Hcalls).
  intros (w'' & payload & Hw'' & Hhead & Hbytes).
  rewrite Hw' in Hw''. injection Hw'' as <-.
  replace (S (S (next_loc opened))) with 3 in Hhead by by_evaluation.
  rewrite Hcalls in Hhead. simpl in Hhead. injection Hhead as <-.
  by apply (Hne [65533%N]).
Qed.

End Instances.

(** * More of the binding: calls, outcomes, progress *)

Section Coverage.
Context `{LevelDB} `{Host}.

(** ** What a call does *)

(** A call leaves the binding as it was without returning the binding, or
    it returns the binding and has dispatched one request, whose write
    batch, if it owns one, was allocated just before. *)
Lemma invoke_cases m args w r w' :
  invoke m args w = (r, w') ->
  (w' = w /\ r ≠ Returned JsDB) \/
  (r = Returned JsDB /\ exists cb o,
     fresh_op o /\ (forall l o', o ≠ PWrite l o' true) /\ w' = dispatch cb o w) \/
  (r = Returned JsDB /\ exists cb o' b,
     w' = dispatch cb (PWrite (next_loc w) o' true) (new_WriteBatch b w).2).
Proof.
  intros Hi. destruct m; simpl in Hi.
  - unfold DB_Open in Hi. destruct (_ || _); [left; split; congruence|].
    destruct (optional_options _ _ _) as [o pos]. simpl in Hi.
    right. left. injection Hi as <- <-. split; [done|]. eexists _, _.
    split; [|split; [|reflexivity]]; unfold fresh_op; intros; discriminate.
  - unfold DB_Close in Hi. simpl in Hi.
    right. left. injection Hi as <- <-. split; [done|]. eexists _, _.
    split; [|split; [|reflexivity]]; unfold fresh_op; intros; discriminate.
  - unfold DB_Put in Hi. destruct (db w); [|left; split; congruence].
    destruct (_ || _); [left; split; congruence|].
    destruct (JsToSlice _ _) as [key s1]. destruct (JsToSlice _ s1) as [value s2].
    destruct (new_WriteBatch _ w) as [l w1] eqn:Hb.
    destruct (optional_options _ _ _) as [o pos].
    destruct (new_WriteParams _ _ _ _) as [p w2] eqn:Hp.
    assert (p = next_loc w1) by (unfold new_WriteParams, new_Params in Hp; congruence).
    assert (l = next_loc w) by (unfold new_WriteBatch in Hb; congruence).
    subst p l. right. right. injection Hi as <- <-. split; [done|].
    eexists _, _, _. rewrite Hb. simpl.
    replace w2 with (new_WriteParams (next_loc w) o (optional_callback args pos) w1).2
      by (by rewrite Hp).
    apply set_dispose_dispatch.
  - unfold DB_Del in Hi. destruct (db w); [|left; split; congruence].
    destruct (_ || _); [left; split; congruence|].
    destruct (JsToSlice _ _) as [key s1].
    destruct (new_WriteBatch _ w) as [l w1] eqn:Hb.
    destruct (optional_options _ _ _) as [o pos].
    destruct (new_WriteParams _ _ _ _) as [p w2] eqn:Hp.
    assert (p = next_loc w1) by (unfold new_WriteParams, new_Params in Hp; congruence).
    assert (l = next_loc w) by (unfold new_WriteBatch in Hb; congruence).
    subst p l. right. right. injection Hi as <- <-. split; [done|].
    eexists _, _, _. rewrite Hb. simpl.
    replace w2 with (new_WriteParams (next_loc w) o (optional_callback args pos) w1).2
      by (by rewrite Hp).
    apply set_dispose_dispatch.
  - unfold DB_Write in Hi. destruct (db w); [|left; split; congruence].
    destruct (_ || _); [left; split; congruence|].
    destruct (Unwrap (arg args 0)); [|left; split; congruence].
    destruct (optional_options _ _ _) as [o pos]. simpl in Hi.
    right. left. injection Hi as <- <-. split; [done|]. eexists _, _.
    split; [|split; [|reflexivity]]; unfold fresh_op; intros; discriminate.
  - unfold DB_Get in Hi. destruct (_ || _); [left; split; congruence|].
    destruct (db w); [|left; split; congruence].
    destruct (JsToSlice _ _) as [key ss].
    destruct (optional_options _ _ _) as [o pos]. simpl in Hi.
    right. left. injection Hi as <- <-. split; [done|]. eexists _, _.
    split; [|split; [|reflexivity]].
    + unfold fresh_op. intros ? ? ? ? E. by inversion E.
    + intros; discriminate.
  - unfold DB_NewIterator in Hi. destruct (negb _); [left; split; congruence|].
    destruct (db w); left; split; congruence.
  - left. unfold DB_GetSnapshot in Hi. split; congruence.
  - left. unfold DB_ReleaseSnapshot in Hi. split; congruence.
  - left. unfold DB_GetProperty in Hi. split; congruence.
  - left. unfold DB_GetApproximateSizes in Hi. split; congruence.
Qed.


(** X2: a method returns the binding exactly when it has dispatched one
    request: the bundle is new, its status is ok, it is last in the queue,
    and the binding and the event loop hold one more reference each; any
    other outcome leaves the binding as it was. *)
Theorem binding_returned_iff_dispatched m args w r w' :
  invoke m args w = (r, w') ->
  (r = Returned JsDB ->
   exists p b,
     (next_loc w <= p)%nat /\ queue w' = queue w ++ [p] /\
     params w' !! p = Some b /\ status b = StOk /\
     refs w' = S (refs w) /\ ev_refs w' = S (ev_refs w)) /\
  (r ≠ Returned JsDB -> w' = w).
Proof.
  intros Hi.
  destruct (invoke_cases _ _ _ _ _ Hi)
    as [[-> Hr]|[(-> & cb & o & _ & _ & ->)|(-> & cb & o & b & ->)]].
  - split; [done|]. done.
  - split; [|done]. intros _. eexists (next_loc w), _. unfold dispatch. simpl.
    rewrite lookup_insert_eq. done.
  - split; [|done]. intros _. eexists (S (next_loc w)), _. unfold dispatch. simpl.
    rewrite lookup_insert_eq. repeat split. lia.
Qed.

Lemma ltb_leb_1 n : (n <? 1)%nat = negb (1 <=? n)%nat.
Proof. destruct n; reflexivity. Qed.

Lemma ltb_leb_2 n : (n <? 2)%nat = negb (2 <=? n)%nat.
Proof. destruct n as [|[|n]]; reflexivity. Qed.

(** X3: the guards of each method: open needs a text file name; close needs
    nothing; put and del need the open handle and their key and value;
    write needs the open handle and an object that wraps a native object (a
    WriteBatch, but the binding itself, an iterator or a buffer pass as
    well: the pointer is not checked); get needs its key and the open
    handle; a call is dispatched exactly when it passes them. *)
Theorem dispatched_iff_guards_pass m args w :
  (invoke m args w).1 = Returned JsDB <-> accepts m args w = true.
Proof.
  destruct m; unfold invoke, accepts; try (split; intros; discriminate).
  - unfold DB_Open. rewrite ltb_leb_1. generalize (1 <=? length args)%nat. intros c.
    destruct c, (IsString (arg args 0)); simpl; try (split; intros; discriminate).
    by destruct (optional_options _ _ _).
  - done.
  - unfold DB_Put, is_open. rewrite ltb_leb_2. generalize (2 <=? length args)%nat. intros c.
    destruct (db w), c, (is_key (arg args 0)), (is_key (arg args 1)); simpl;
      try (split; intros; discriminate).
    destruct (JsToSlice _ _), (JsToSlice _ _), (optional_options _ _ _). done.
  - unfold DB_Del, is_open. rewrite ltb_leb_1. generalize (1 <=? length args)%nat. intros c.
    destruct (db w), c, (is_key (arg args 0)); simpl; try (split; intros; discriminate).
    destruct (JsToSlice _ _), (optional_options _ _ _). done.
  - unfold DB_Write, is_open. rewrite ltb_leb_1. generalize (1 <=? length args)%nat. intros c.
    destruct (db w), c; simpl; try (split; intros; discriminate).
    unfold is_wrapped.
    destruct (arg args 0); simpl; try (split; intros; discriminate);
      by destruct (optional_options _ _ _).
  - unfold DB_Get, is_open. rewrite ltb_leb_1. generalize (1 <=? length args)%nat. intros c.
    destruct c, (is_key (arg args 0)), (db w); simpl; try (split; intros; discriminate).
    destruct (JsToSlice _ _), (optional_options _ _ _). done.
  - unfold DB_NewIterator. destruct (negb _); [split; intros; discriminate|].
    destruct (db w); split; intros; discriminate.
Qed.

(** ** The optional arguments *)

Lemma optional_options_stop conv x rest :
  IsObject x = false -> optional_options conv (x :: rest) 0 = (DefaultOpts, 0%nat).
Proof. intros Hx. unfold optional_options, arg. simpl. by rewrite Hx. Qed.

Lemma optional_callback_stop x rest :
  IsObject x = false -> optional_callback (x :: rest) 0 = None.
Proof. intros Hx. unfold optional_callback, arg. simpl. by destruct x. Qed.

(** X4: an argument in the place of the options that is neither an object
    nor a function (null, undefined, a number, a text) ends the parsing of
    the optional arguments: the call is the call without it and without
    what follows it, so a callback passed after it is never registered. *)
Theorem non_object_argument_ends_parsing m n args x rest w :
  required m = Some n -> length args = n -> IsObject x = false ->
  invoke m (args ++ x :: rest) w = invoke m args w.
Proof.
  intros Hm Hn Hx.
  pose proof (optional_options_stop JsToOptions x rest Hx) as Ho.
  pose proof (optional_callback_stop x rest Hx) as Hc.
  destruct m; simpl in Hm; try discriminate; injection Hm as <-.
  - destruct args as [|a [|? ?]]; try discriminate. simpl.
    unfold DB_Open, arg. simpl.
    rewrite optional_options_shift, Ho. simpl.
    by rewrite optional_callback_shift, Hc.
  - destruct args; try discriminate. simpl.
    unfold DB_Close. by rewrite Hc.
  - destruct args as [|k [|v [|? ?]]]; try discriminate. simpl.
    unfold DB_Put, arg. simpl.
    unfold JsToWriteOptions. rewrite !optional_options_shift, Ho. simpl.
    by rewrite !optional_callback_shift, Hc.
  - destruct args as [|k [|? ?]]; try discriminate. simpl.
    unfold DB_Del, arg. simpl.
    unfold JsToWriteOptions. rewrite !optional_options_shift, Ho. simpl.
    by rewrite !optional_callback_shift, Hc.
  - destruct args as [|k [|? ?]]; try discriminate. simpl.
    unfold DB_Write, arg. simpl.
    unfold JsToWriteOptions. rewrite !optional_options_shift, Ho. simpl.
    by rewrite !optional_callback_shift, Hc.
  - destruct args as [|k [|? ?]]; try discriminate. simpl.
    unfold DB_Get, arg. simpl.
    unfold JsToReadOptions. rewrite !optional_options_shift, Ho. simpl.
    by rewrite !optional_callback_shift, Hc.
Qed.

(** ** Completions *)

(** X5: when a request without a callback completes, nothing is told to
    the program, whatever the status, an engine error included: no
    callback receives a call and nothing reaches [FatalException]; the
    bundle is destroyed all the same. *)
Theorem completion_without_callback_is_silent p w w' b :
  complete p w = Some w' -> params w !! p = Some b -> callback b = None ->
  (forall q, calls_of q (trace w') = calls_of q (trace w)) /\
  (forall q, fatals_of q (trace w') = fatals_of q (trace w)) /\
  params w' !! p = None.
Proof.
  intros Hc Hb Hcb.
  destruct (complete_inv_fields _ _ _ Hc) as (c & _ & Hc' & _ & _ & Ep & _ & _ & _ & _ & _ & _ & Et).
  assert (c = b) by congruence. subst c.
  assert (Hev : after_events p b
                = EvDeleteParams p :: match op b with
                                      | PWrite l _ true => [EvDeleteBatch l]
                                      | _ => []
                                      end).
  { unfold after_events, callback_events. by rewrite Hcb, app_nil_r. }
  rewrite Et, Hev, Ep, lookup_delete_eq.
  split; [|split; [|done]]; intros q; unfold calls_of, fatals_of;
    rewrite omap_app; by destruct (op b) as [| |l o [|]|].
Qed.

(** ** The threads and the callbacks over a whole run *)

(** X6: in every reachable state, whatever was done on the worker thread
    was the execute function of a request: bundles, batches and callbacks
    were only handled on the caller thread. *)
Theorem worker_only_executes w t e :
  reachable w -> (t, e) ∈ trace w ->
  (t = Worker <-> exists p, e = EvExecute p).
Proof.
  intros Hr Hin. rewrite (inv_threads _ (reachable_inv _ Hr) _ _ Hin).
  destruct e; simpl; split; try (intros; discriminate); try (intros [? ?]; discriminate);
    eauto.
Qed.

(** X7: in every reachable state the callback of a request was called at
    most once, and if it was called, the request had been executed once and
    its bundle is destroyed. *)
Theorem callback_called_at_most_once w p :
  reachable w ->
  (count (is_call p) (trace w) <= 1)%nat /\
  (count (is_call p) (trace w) = 1%nat ->
   count (is_execute p) (trace w) = 1%nat /\
   count (is_delete p) (trace w) = 1%nat /\
   params w !! p = None).
Proof.
  intros Hr. pose proof (reachable_inv _ Hr) as Hi.
  destruct (decide (p ∈ queue w ++ done_ w)) as [Hin|Hout].
  - assert (Hz : count (is_call p) (trace w) = 0%nat).
    { apply elem_of_app in Hin as [Hq|Hd].
      - by destruct (inv_queued _ Hi _ Hq) as (_ & _ & ? & _).
      - by destruct (inv_executed _ Hi _ Hd) as (_ & _ & ? & _). }
    rewrite Hz. split; [lia|discriminate].
  - destruct (inv_gone _ Hi _ Hout) as (Hn & Hx & Hc & Hd).
    split; [lia|]. intros Hone. rewrite Hx, Hd.
    assert (count (is_new p) (trace w) = 1%nat) by lia.
    split; [done|]. split; [done|].
    destruct (params w !! p) eqn:Hp; [|done].
    exfalso. apply Hout. apply (inv_live _ Hi). by rewrite Hp.
Qed.

(** ** From the worker to the callback *)

(** A queued request of a reachable state, run by the worker and then
    completed: the engine is left as the worker left it, the callback gets
    one call, fixed by the bundle the worker wrote. *)
Lemma run_request w p b b' w0 :
  reachable w -> p ∈ queue w -> params w !! p = Some b ->
  run_execute b (on_thread Worker w) = Some (b', w0) ->
  exists w1 w2,
    execute p w = Some w1 /\ db w1 = db w0 /\ env w1 = env w0 /\
    complete p w1 = Some w2 /\ db w2 = db w0 /\ env w2 = env w0 /\
    calls_of p (trace w2)
    = match callback b with
      | Some f => [(f, callback_argv (status b') (after_result b'))]
      | None => []
      end /\
    batches w2 = match op b' with
                 | PWrite l _ true => delete l (batches w)
                 | _ => batches w
                 end.
Proof.
  intros Hreach Hq Hb Hr. pose proof (reachable_inv _ Hreach) as Hi.
  destruct (inv_queued _ Hi _ Hq) as (_ & _ & Hcalls & _).
  destruct (run_execute_fields _ _ _ _ Hr) as (_&_&_&_&_&_&_&_&_&Hcb).
  destruct (execute_some _ _ _ _ _ Hq Hb Hr) as (w1 & He & Edb & Eenv & Ep & _ & Ed & Eb & Et).
  assert (Hb1 : params w1 !! p = Some b') by (by rewrite Ep, lookup_insert_eq).
  assert (Hd1 : p ∈ done_ w1) by (rewrite Ed, elem_of_app; right; by apply list_elem_of_singleton).
  destruct (complete_some _ _ _ Hd1 Hb1) as (w2 & Hc).
  destruct (complete_inv_fields _ _ _ Hc)
    as (c & _ & Hc' & _ & _ & _ & _ & _ & _ & Edb2 & Eenv2 & Eb2 & Et2).
  assert (c = b') by congruence. subst c.
  exists w1, w2. rewrite Edb2, Eenv2, Edb, Eenv, Eb2, Eb.
  repeat split; try done.
  rewrite Et2, calls_of_app, after_events_calls, Et, Hcb.
  change (calls_of p ((Worker, EvExecute p) :: trace w)) with (calls_of p (trace w)).
  rewrite (no_calls _ _ Hcalls), app_nil_r. done.
Qed.

Lemma callback_argv_failure c m result :
  callback_argv (StErr c m) result = status_argv (StErr c m).
Proof. by destruct c. Qed.

(** X8: a queued get that the worker runs on an open handle tells its
    callback what the engine found: [(null, text)] with the text of the
    value, [(null)] alone when the engine reports not-found, and one error
    carrying the engine's message for any other failure; the engine is not
    changed. *)
Theorem get_outcome_delivered w p b key o ss r0 i :
  reachable w -> p ∈ queue w -> params w !! p = Some b ->
  op b = PRead key o ss r0 -> db w = Some i ->
  exists w1 w2,
    execute p w = Some w1 /\ complete p w1 = Some w2 /\
    db w2 = Some i /\ env w2 = env w /\
    calls_of p (trace w2)
    = match callback b with
      | Some f =>
        [(f, match ldb_Get i o key (env w) with
             | inl v => [JsNull; JsStr (Utf8.decode v)]
             | inr (c, m) => status_argv (StErr c m)
             end)]
      | None => []
      end.
Proof.
  intros Hreach Hq Hb Ho Hdb.
  destruct (inv_fresh _ (reachable_inv _ Hreach) _ _ Hq Hb) as [Hst _].
  assert (Hr : exists b', run_execute b (on_thread Worker w) = Some (b', on_thread Worker w) /\
               callback_argv (status b') (after_result b')
               = match ldb_Get i o key (env w) with
                 | inl v => [JsNull; JsStr (Utf8.decode v)]
                 | inr (c, m) => status_argv (StErr c m)
                 end).
  { unfold run_execute, EIO_Read. rewrite Ho. simpl. rewrite Hdb.
    destruct (ldb_Get i o key (env w)) as [v|[c m]]; eexists; (split; [reflexivity|]).
    - unfold after_result. simpl. done.
    - simpl. apply callback_argv_failure. }
  destruct Hr as (b' & Hr & Hargv).
  destruct (run_request _ _ _ _ _ Hreach Hq Hb Hr)
    as (w1 & w2 & He & _ & _ & Hc & Hdb2 & Henv2 & Hcalls & _).
  exists w1, w2. rewrite Hcalls, Hargv, Hdb2, Henv2. repeat split; try done.
Qed.

(** X9: a queued put, del or write that the worker runs on an open handle
    hands the engine the batch as it is at that moment, leaves the engine
    as the engine's write left it, and tells its callback the engine's
    status: no argument on success, [(null)] alone on a not-found status,
    one error carrying the status string on any other failure; the batch is
    destroyed exactly when the request owns it, on failure as on success. *)
Theorem write_outcome_delivered w p b l o d i wbatch :
  reachable w -> p ∈ queue w -> params w !! p = Some b ->
  op b = PWrite l o d -> db w = Some i -> batches w !! l = Some wbatch ->
  exists w1 w2,
    execute p w = Some w1 /\ complete p w1 = Some w2 /\
    db w2 = Some i /\ env w2 = (ldb_Write i o (wb wbatch) (env w)).2 /\
    calls_of p (trace w2)
    = match callback b with
      | Some f => [(f, status_argv (ldb_Write i o (wb wbatch) (env w)).1)]
      | None => []
      end /\
    batches w2 = if d then delete l (batches w) else batches w.
Proof.
  intros Hreach Hq Hb Ho Hdb Hl.
  destruct (ldb_Write i o (wb wbatch) (env w)) as [s e'] eqn:Hw.
  assert (Hr : run_execute b (on_thread Worker w)
               = Some (with_status s b, set_engine (Some i) e' (on_thread Worker w))).
  { unfold run_execute, EIO_Write. rewrite Ho. simpl. by rewrite Hdb, Hl, Hw. }
  destruct (run_request _ _ _ _ _ Hreach Hq Hb Hr)
    as (w1 & w2 & He & _ & _ & Hc & Hdb2 & Henv2 & Hcalls & Hbat).
  exists w1, w2. rewrite Hcalls, Hbat. simpl. rewrite Ho.
  repeat split; try done.
  - destruct (callback b); [|done]. unfold after_result. simpl. rewrite Ho.
    destruct s as [|c m]; [done|]. by rewrite callback_argv_failure.
Qed.

(** X10: a queued open that the worker runs tells its callback the outcome:
    no argument when the engine opened the database, and then the handle
    is the new instance; otherwise [(null)] alone when the status of the
    engine is not-found and one error carrying the status string for any
    other failure, and then the handle is null, so that put, del and write
    are refused with the not-opened error. *)
Theorem open_outcome_delivered w p b name o :
  reachable w -> p ∈ queue w -> params w !! p = Some b -> op b = POpen name o ->
  exists w1 w2,
    execute p w = Some w1 /\ complete p w1 = Some w2 /\
    match (ldb_Open o name (match db w with
                            | Some i => ldb_delete i (env w)
                            | None => env w
                            end)).1 with
    | inl i =>
      db w2 = Some i /\
      calls_of p (trace w2) = match callback b with Some f => [(f, [])] | None => [] end
    | inr (c, m) =>
      db w2 = None /\
      calls_of p (trace w2)
      = match callback b with Some f => [(f, status_argv (StErr c m))] | None => [] end /\
      forall args,
        DB_Put args w2 = (Threw not_opened, w2) /\
        DB_Del args w2 = (Threw not_opened, w2) /\
        DB_Write args w2 = (Threw not_opened, w2)
    end.
Proof.
  intros Hreach Hq Hb Ho.
  set (e1 := match db w with Some i => ldb_delete i (env w) | None => env w end).
  destruct (ldb_Open o name e1) as [r e2] eqn:Hopen.
  assert (Hr : exists b' w0, run_execute b (on_thread Worker w) = Some (b', w0) /\
               match r with
               | inl i => db w0 = Some i /\ status b' = StOk
               | inr (c, m) => db w0 = None /\ status b' = StErr c m
               end /\ op b' = op b).
  { unfold run_execute, EIO_Open. rewrite Ho. simpl. fold e1. rewrite Hopen.
    destruct r as [i|[c m]]; eexists _, _; done. }
  destruct Hr as (b' & w0 & Hr & Hres & Hop).
  destruct (run_request _ _ _ _ _ Hreach Hq Hb Hr)
    as (w1 & w2 & He & _ & _ & Hc & Hdb2 & _ & Hcalls & _).
  exists w1, w2. split; [done|]. split; [done|]. simpl.
  rewrite Hcalls, Hdb2. unfold after_result. rewrite Hop, Ho.
  destruct r as [i|[c m]]; destruct Hres as [Hdb0 Hst]; rewrite Hst.
  - split; [done|]. by destruct (callback b).
  - split; [done|]. split.
    + destruct (callback b); [|done]. by rewrite callback_argv_failure.
    + intros args. unfold DB_Put, DB_Del, DB_Write. by rewrite Hdb2, Hdb0.
Qed.

(** X11: once the worker has run a close, newIterator with an object
    argument goes through the null handle: the call faults, where put and
    get throw. *)
Theorem newIterator_after_close_faults w p b w1 a :
  params w !! p = Some b -> op b = PClose -> execute p w = Some w1 ->
  IsObject a = true ->
  db w1 = None /\
  invoke m_newIterator [a] w1 = (Faulted, w1) /\
  step (Invoke m_newIterator [a]) w1 = None /\
  invoke m_get [JsStr []] w1 = (Threw not_opened, w1).
Proof.
  intros Hb Ho He Ha.
  destruct (execute_inv_fields _ _ _ He) as (c&c'&w0&_&Hc&Hr&_&_&_&_&_&_&_&Edb&_).
  assert (c = b) by congruence. subst c.
  assert (Hdb : db w1 = None).
  { rewrite Edb. unfold run_execute, EIO_Close in Hr. rewrite Ho in Hr.
    simpl in Hr. destruct (db w) eqn:Hw; injection Hr as <- <-; [done|]. simpl. exact Hw. }
  split; [done|]. split; [by apply NewIterator_null_handle|]. split.
  - simpl. change (db (on_thread Caller w1)) with (db w1).
    by rewrite (NewIterator_null_handle a (on_thread Caller w1) Hdb Ha).
  - simpl. unfold DB_Get. simpl. by rewrite Hdb.
Qed.

(** ** The batches owned by requests *)

Lemma batches_ok_initial e : batches_ok (initial e).
Proof.
  assert (Hno : forall p l, ~ owns (initial e) p l).
  { intros p l (b & o & Hb & _). simpl in Hb. by rewrite lookup_empty in Hb. }
  constructor.
  - intros p l Hp. by destruct (Hno p l).
  - intros p l Hp. by destruct (Hno p l).
  - intros p p' l Hp. by destruct (Hno p l).
Qed.

Lemma batches_ok_on_thread t w : batches_ok w -> batches_ok (on_thread t w).
Proof. intros []; by constructor. Qed.

Lemma batches_ok_new_batch b w : batches_ok w -> batches_ok (new_WriteBatch b w).2.
Proof.
  intros [Hl Hb Ho]. constructor; simpl.
  - intros p l Hp. destruct (decide (next_loc w = l)) as [<-|Hne].
    + rewrite lookup_insert_eq. by eexists.
    + rewrite lookup_insert_ne by done. by eapply Hl.
  - intros p l Hp. apply (Hb p l) in Hp. lia.
  - exact Ho.
Qed.

Lemma owns_dispatch cb o w p l :
  owns (dispatch cb o w) p l ->
  (p = next_loc w /\ exists o', o = PWrite l o' true) \/ (p ≠ next_loc w /\ owns w p l).
Proof.
  intros (b & o' & Hb & Hop). unfold dispatch in Hb. simpl in Hb.
  destruct (decide (next_loc w = p)) as [<-|Hne].
  - rewrite lookup_insert_eq in Hb. injection Hb as <-. simpl in Hop.
    left. split; [done|]. by exists o'.
  - rewrite lookup_insert_ne in Hb by done. right. split; [congruence|]. by exists b, o'.
Qed.

Lemma batches_ok_dispatch_plain cb o w :
  (forall l o', o ≠ PWrite l o' true) -> batches_ok w -> batches_ok (dispatch cb o w).
Proof.
  intros Hplain [Hl Hb Ho].
  assert (Hold : forall p l, owns (dispatch cb o w) p l -> owns w p l).
  { intros p l [(_ & o' & ->)|[_ Hp]]%owns_dispatch; [|done]. by destruct (Hplain l o'). }
  constructor.
  - intros p l Hp%Hold. by eapply Hl.
  - intros p l Hp%Hold. apply (Hb p l) in Hp. simpl. lia.
  - intros p p' l Hp%Hold Hp'%Hold. by eapply Ho.
Qed.

Lemma batches_ok_dispatch_owned cb o' b w :
  batches_ok w ->
  batches_ok (dispatch cb (PWrite (next_loc w) o' true) (new_WriteBatch b w).2).
Proof.
  intros Hok. pose proof (batches_ok_new_batch b w Hok) as [Hl Hb Ho].
  destruct Hok as [_ Hb0 _].
  set (w1 := (new_WriteBatch b w).2) in *.
  assert (Hcases : forall p l,
            owns (dispatch cb (PWrite (next_loc w) o' true) w1) p l ->
            (p = next_loc w1 /\ l = next_loc w) \/ (p ≠ next_loc w1 /\ owns w p l)).
  { intros p l [(-> & o'' & E)|[Hne Hp]]%owns_dispatch.
    - left. split; [done|]. congruence.
    - right. split; [done|]. exact Hp. }
  constructor.
  - intros p l [[-> ->]|[_ Hp]]%Hcases.
    + simpl. rewrite lookup_insert_eq. by eexists.
    + by apply (Hl p l).
  - intros p l [[-> ->]|[_ Hp]]%Hcases; simpl; [lia|].
    apply (Hb0 p l) in Hp. lia.
  - intros p p' l [[-> ->]|[_ Hp]]%Hcases [[-> E]|[_ Hp']]%Hcases; try done.
    + apply (Hb0 p' _) in Hp'. lia.
    + subst l. apply (Hb0 p _) in Hp. lia.
    + by eapply Ho.
Qed.

Lemma run_execute_keeps_owned b w b' w0 l o :
  run_execute b w = Some (b', w0) -> op b' = PWrite l o true -> op b = PWrite l o true.
Proof.
  unfold run_execute. destruct (op b) as [name o1| |l1 o1 d|k o1 ss r] eqn:Hop; intros E.
  - unfold EIO_Open in E. destruct (ldb_Open _ _ _) as [[i|[c m]] e2];
      injection E as <- _; simpl; congruence.
  - unfold EIO_Close in E. destruct (db w); injection E as <- _; congruence.
  - unfold EIO_Write in E. destruct (db w); [|injection E as <- _; congruence].
    destruct (batches w !! l1); [|done].
    destruct (ldb_Write _ _ _ _). injection E as <- _. simpl. congruence.
  - unfold EIO_Read in E. destruct (db w); [|injection E as <- _; congruence].
    destruct (ldb_Get _ _ _ _) as [v|[c m]]; injection E as <- _; simpl; congruence.
Qed.

Lemma batches_ok_execute p w w' : batches_ok w -> execute p w = Some w' -> batches_ok w'.
Proof.
  intros [Hl Hb Ho] He.
  destruct (execute_inv_fields _ _ _ He) as (b&b'&w1&_&Hpb&Hr&_&_&Ep&_&_&En&Eb&_).
  assert (Hold : forall q l, owns w' q l -> owns w q l).
  { intros q l (c & o & Hc & Hop). rewrite Ep in Hc.
    destruct (decide (p = q)) as [<-|Hne].
    - rewrite lookup_insert_eq in Hc. injection Hc as <-.
      exists b, o. split; [done|]. by eapply run_execute_keeps_owned.
    - rewrite lookup_insert_ne in Hc by done. by exists c, o. }
  constructor.
  - intros q l Hq%Hold. rewrite Eb. by eapply Hl.
  - intros q l Hq%Hold. rewrite En. by eapply Hb.
  - intros q q' l Hq%Hold Hq'%Hold. by eapply Ho.
Qed.

Lemma batches_ok_complete p w w' : batches_ok w -> complete p w = Some w' -> batches_ok w'.
Proof.
  intros [Hl Hb Ho] Hc.
  destruct (complete_inv_fields _ _ _ Hc) as (b&_&Hpb&_&_&Ep&_&_&En&_&_&Eb&_).
  assert (Hold : forall q l, owns w' q l -> q ≠ p /\ owns w q l).
  { intros q l (c & o & Hq & Hop). rewrite Ep in Hq.
    apply lookup_delete_Some in Hq as [Hne Hq]. split; [congruence|]. by exists c, o. }
  constructor.
  - intros q l [Hne Hq]%Hold. rewrite Eb.
    destruct (op b) as [| |l0 o0 [|]|] eqn:Hop; try by eapply Hl.
    rewrite lookup_delete_ne; [by eapply Hl|].
    intros <-. apply Hne. apply (Ho q p l0); [done|]. by exists b, o0.
  - intros q l [_ Hq]%Hold. rewrite En. by eapply Hb.
  - intros q q' l [_ Hq]%Hold [_ Hq']%Hold. by eapply Ho.
Qed.

Lemma batches_ok_step a w w' : batches_ok w -> step a w = Some w' -> batches_ok w'.
Proof.
  intros Hok Hs. destruct a as [m args|b|p|p]; simpl in Hs.
  - destruct (invoke m args (on_thread Caller w)) as [r w1] eqn:Hc.
    assert (w1 = w') by (destruct r; congruence). subst w1.
    apply (batches_ok_on_thread Caller) in Hok.
    destruct (invoke_cases _ _ _ _ _ Hc)
      as [[-> _]|[(_ & cb & o & _ & Hplain & ->)|(_ & cb & o & b & ->)]].
    + done.
    + by apply batches_ok_dispatch_plain.
    + by apply batches_ok_dispatch_owned.
  - injection Hs as <-. apply (batches_ok_new_batch b (on_thread Caller w)).
    by apply batches_ok_on_thread.
  - by eapply batches_ok_execute.
  - by eapply batches_ok_complete.
Qed.

Lemma reachable_batches_ok w : reachable w -> batches_ok w.
Proof.
  induction 1 as [e|a w w' _ IH Hs]; [apply batches_ok_initial|by eapply batches_ok_step].
Qed.

(** X12: nothing dispatched is ever stuck or cancelled: in every
    reachable state a queued request can be run by the worker and then
    completed, after which it is gone; for a put or a del the batch the
    request owns is still allocated when the worker uses it, and no other
    request owns it.  (A write needs the caller's batch to be there.) *)
Theorem dispatched_request_runs_to_completion w p b :
  reachable w -> p ∈ queue w -> params w !! p = Some b ->
  match op b with
  | PWrite l _ false => is_Some (batches w !! l)
  | _ => True
  end ->
  (forall l o, op b = PWrite l o true ->
     is_Some (batches w !! l) /\ (forall q, owns w q l -> q = p)) /\
  exists w1 w2,
    execute p w = Some w1 /\ complete p w1 = Some w2 /\
    (p ∉ queue w2 ++ done_ w2) /\ params w2 !! p = None.
Proof.
  intros Hreach Hq Hb Hcaller.
  pose proof (reachable_batches_ok _ Hreach) as Hok.
  assert (Hown : forall l o, op b = PWrite l o true ->
            is_Some (batches w !! l) /\ (forall q, owns w q l -> q = p)).
  { intros l o Hop. assert (owns w p l) by (by exists b, o).
    split; [by eapply (owned_live _ Hok)|].
    intros q Hq'. by eapply (owned_once _ Hok). }
  split; [exact Hown|].
  assert (Hr : exists b' w0, run_execute b (on_thread Worker w) = Some (b', w0)).
  { assert (Hpair : forall x : Params * World, exists b' w0, Some x = Some (b', w0)).
    { intros [b' w0]. by exists b', w0. }
    unfold run_execute. destruct (op b) as [name o| |l o d|k o ss r] eqn:Hop;
      try apply Hpair.
    unfold EIO_Write. simpl. destruct (db w); [|apply Hpair].
    assert (Hl : is_Some (batches w !! l)).
    { destruct d; [exact (proj1 (Hown l o eq_refl))|done]. }
    destruct Hl as [wbatch ->]. destruct (ldb_Write _ _ _ _). apply Hpair. }
  destruct Hr as (b' & w0 & Hr).
  destruct (run_request _ _ _ _ _ Hreach Hq Hb Hr) as (w1 & w2 & He & _ & _ & Hc & _).
  exists w1, w2. split; [done|]. split; [done|].
  assert (Hreach2 : reachable w2).
  { apply (reachable_step (Complete p) w1); [|done].
    by apply (reachable_step (Execute p) w). }
  destruct (complete_inv_fields _ _ _ Hc) as (c&_&_&_&_&Ep&_).
  assert (Hnone : params w2 !! p = None) by (by rewrite Ep, lookup_delete_eq).
  split; [|done].
  intros Hin. apply (inv_live _ (reachable_inv _ Hreach2)) in Hin.
  rewrite Hnone in Hin. by destruct Hin.
Qed.

(** ** The idle binding *)

(** X13: in every reachable state with no request in flight nothing is
    retained: no bundle is allocated, the binding holds no reference on
    itself and none on the event loop, and no batch is owned by a request. *)
Theorem idle_binding_retains_nothing w :
  reachable w -> queue w = [] -> done_ w = [] ->
  params w = ∅ /\ refs w = 0%nat /\ ev_refs w = 0%nat /\ forall p l, ~ owns w p l.
Proof.
  intros Hreach Hq Hd. pose proof (reachable_inv _ Hreach) as Hi.
  assert (Hnone : forall p, params w !! p = None).
  { intros p. destruct (params w !! p) eqn:Hp; [|done].
    assert (Hin : p ∈ queue w ++ done_ w) by (apply (inv_live _ Hi); by rewrite Hp).
    rewrite Hq, Hd in Hin. by apply elem_of_nil in Hin. }
  split; [|split; [|split]].
  - apply map_eq. intros p. by rewrite Hnone, lookup_empty.
  - by rewrite (inv_refs _ Hi), Hq, Hd.
  - by rewrite (inv_ev_refs _ Hi), Hq, Hd.
  - intros p l (b & o & Hb & _). by rewrite Hnone in Hb.
Qed.

(** ** Which callback a call registers *)

Lemma optional_options_object conv x rest :
  IsObject x = true -> IsFunction x = false ->
  optional_options conv (x :: rest) 0 = (conv x, 1%nat).
Proof. intros Hx Hf. unfold optional_options, arg. simpl. by rewrite Hx, Hf. Qed.

(** The callback registered from the arguments after the required ones,
    for a method that reads an options object. *)
Lemma tail_callback conv tail :
  optional_callback tail (optional_options conv tail 0).2 = callback_in true tail.
Proof.
  destruct tail as [|x tail]; [done|].
  destruct (IsFunction x) eqn:Hf.
  { destruct x; try discriminate. reflexivity. }
  destruct (IsObject x) eqn:Hx.
  - rewrite optional_options_object by done. simpl.
    destruct x; try discriminate; destruct tail as [|[] ?]; reflexivity.
  - rewrite optional_options_stop by done. simpl.
    rewrite optional_callback_stop by done.
    destruct x; try discriminate; destruct tail as [|[] ?]; reflexivity.
Qed.

Lemma close_callback tail : optional_callback tail 0 = callback_in false tail.
Proof.
  destruct tail as [|x tail]; [done|].
  destruct x; try reflexivity; destruct tail as [|[] ?]; reflexivity.
Qed.

(** write with any object that wraps a native object is dispatched, with
    the pointer the object wraps. *)
Lemma DB_Write_unwrapped i x l rest w :
  db w = Some i -> Unwrap x = Some l ->
  DB_Write (x :: rest) w
  = (Returned JsDB,
     dispatch (optional_callback rest (optional_options JsToWriteOptions rest 0).2)
       (PWrite l (optional_options JsToWriteOptions rest 0).1 false) w).
Proof.
  intros Hdb Hx. unfold DB_Write, arg. simpl. rewrite Hdb.
  assert (Hobj : IsObject x = true) by (by destruct x).
  rewrite Hobj, Hx. simpl.
  rewrite optional_options_shift, optional_callback_shift. reflexivity.
Qed.

(** X14: which callback a dispatched call registers: the function that
    comes right after the required arguments, or the function that comes
    after one object in that place; close reads no options, so its callback
    has to be its first argument; in every other case none is registered
    and the outcome of the request is reported to nobody. *)
Theorem registered_callback m n args tail w :
  required m = Some n -> length args = n -> accepts m args w = true ->
  exists p b,
    queue (invoke m (args ++ tail) w).2 = queue w ++ [p] /\
    params (invoke m (args ++ tail) w).2 !! p = Some b /\
    callback b = callback_in (reads_options m) tail.
Proof.
  intros Hm Hn Hacc.
  assert (Hfin : forall cb o w0 (c : option nat),
            cb = c ->
            exists p b, queue (dispatch cb o w0) = queue w0 ++ [p] /\
                        params (dispatch cb o w0) !! p = Some b /\ callback b = c).
  { intros cb o w0 c <-. eexists _, _. unfold dispatch. simpl.
    rewrite lookup_insert_eq. done. }
  destruct m; simpl in Hm; try discriminate; injection Hm as <-;
    unfold accepts, arg in Hacc; unfold reads_options.
  - destruct args as [|a [|? ?]]; try discriminate. simpl in Hacc.
    simpl. unfold DB_Open, arg. simpl. rewrite Hacc. simpl.
    rewrite optional_options_shift, optional_callback_shift.
    destruct (optional_options JsToOptions tail 0) as [o pos] eqn:Ho. simpl.
    apply Hfin. by rewrite <- (tail_callback JsToOptions tail), Ho.
  - destruct args; try discriminate. simpl.
    unfold DB_Close. simpl. apply Hfin. apply close_callback.
  - destruct args as [|k [|v [|? ?]]]; try discriminate. simpl in Hacc.
    unfold is_open in Hacc. destruct (db w) as [i|] eqn:Hdb; [|discriminate].
    apply andb_prop in Hacc as [Hk Hv]. simpl in Hk. simpl.
    rewrite (DB_Put_dispatch i) by done. simpl.
    apply (Hfin _ _ (new_WriteBatch (single_put k v) w).2).
    apply tail_callback.
  - destruct args as [|k [|? ?]]; try discriminate. simpl in Hacc.
    unfold is_open in Hacc. destruct (db w) as [i|] eqn:Hdb; [|discriminate].
    simpl in Hacc. simpl.
    rewrite (DB_Del_dispatch i) by done. simpl.
    apply (Hfin _ _ (new_WriteBatch (single_delete k) w).2).
    apply tail_callback.
  - destruct args as [|k [|? ?]]; try discriminate. simpl in Hacc.
    unfold is_open in Hacc. destruct (db w) as [i|] eqn:Hdb; [|discriminate].
    simpl in Hacc. unfold is_wrapped in Hacc.
    destruct (Unwrap k) as [l|] eqn:Hk; [|discriminate]. simpl.
    rewrite (DB_Write_unwrapped i k l) by done. simpl.
    apply Hfin. apply tail_callback.
  - destruct args as [|k [|? ?]]; try discriminate. simpl in Hacc.
    unfold is_open in Hacc. destruct (db w) as [i|] eqn:Hdb;
      [|by rewrite andb_false_r in Hacc].
    rewrite andb_true_r in Hacc. simpl.
    unfold DB_Get, arg. simpl. rewrite Hacc, Hdb. simpl.
    destruct (JsToSlice k _) as [key ss].
    unfold JsToReadOptions. rewrite optional_options_shift, optional_callback_shift.
    destruct (optional_options JsToOptions tail 0) as [o pos] eqn:Ho. simpl.
    apply Hfin. by rewrite <- (tail_callback JsToOptions tail), Ho.
Qed.

(** ** The file name of open *)

Lemma c_str_app_zero a b :
  Forall (fun x => x ≠ Byte.x00) a -> c_str (a ++ Byte.x00 :: b) = a.
Proof.
  induction 1 as [|x a Hx _ IH]; simpl; [done|].
  rewrite bool_decide_eq_false_2 by done. by rewrite IH.
Qed.

Lemma c_str_no_zero a : Forall (fun x => x ≠ Byte.x00) a -> c_str a = a.
Proof.
  induction 1 as [|x a Hx _ IH]; simpl; [done|].
  rewrite bool_decide_eq_false_2 by done. by rewrite IH.
Qed.

Lemma byte_of_N_not_zero n : (0 < n < 256)%N -> Utf8.byte_of_N n ≠ Byte.x00.
Proof.
  intros Hn E. pose proof (Utf8Facts.to_N_byte_of_N n (proj2 Hn)) as Hb.
  rewrite E in Hb. simpl in Hb. lia.
Qed.

Lemma encode_cp_no_zero c :
  c ≠ 0%N -> Forall (fun x => x ≠ Byte.x00) (Utf8.encode_cp c).
Proof.
  intros Hc. unfold Utf8.encode_cp.
  destruct (N.ltb_spec c 128) as [H1|H1]; [|destruct (N.ltb_spec c 2048) as [H2|H2];
    [|destruct (N.ltb_spec c 65536) as [H3|H3]]];
    repeat apply Forall_cons_2; try apply Forall_nil_2;
    apply byte_of_N_not_zero; Utf8Facts.div_lia.
Qed.

Lemma encode_no_zero s :
  0%N ∉ s -> Forall (fun x => x ≠ Byte.x00) (Utf8.encode s).
Proof.
  induction s as [|c s IH]; intros Hs; unfold Utf8.encode; simpl.
  - apply Forall_nil_2.
  - apply not_elem_of_cons in Hs as [Hc Hs]. apply Forall_app. split.
    + apply encode_cp_no_zero. congruence.
    + by apply IH.
Qed.

Lemma encode_app_zero s t :
  Utf8.encode (s ++ 0%N :: t) = Utf8.encode s ++ Byte.x00 :: Utf8.encode t.
Proof. unfold Utf8.encode. rewrite map_app, concat_app. reflexivity. Qed.

(** X15: open reads its file name as a C string: a name is cut at its first
    U+0000, so that open of a text with a U+0000 in it is open of what
    comes before the U+0000, whatever follows. *)
Theorem open_name_stops_at_zero s t rest w :
  0%N ∉ s ->
  invoke m_open (JsStr (s ++ 0%N :: t) :: rest) w = invoke m_open (JsStr s :: rest) w.
Proof.
  intros Hs. pose proof (encode_no_zero s Hs) as Hz.
  simpl. unfold DB_Open, arg. simpl.
  rewrite !optional_options_shift. destruct (optional_options _ rest 0) as [o pos].
  simpl. rewrite !optional_callback_shift.
  by rewrite encode_app_zero, c_str_app_zero, c_str_no_zero.
Qed.

(** ** write and the pointer it is given *)

(** X16: write does not check that the object it is given is a WriteBatch:
    with an object that wraps a native object of another kind (the binding
    itself, an iterator, a buffer) the call is dispatched like any write
    and returns the binding; when the worker then runs the request on the
    open handle it reads that object as a batch, which is undefined (the
    worker has no next state). *)
Theorem write_does_not_check_its_batch x l rest i w :
  db w = Some i -> Unwrap x = Some l -> batches w !! l = None ->
  exists p b w',
    invoke m_write (x :: rest) w = (Returned JsDB, w') /\
    queue w' = queue w ++ [p] /\ params w' !! p = Some b /\
    op b = PWrite l (optional_options JsToWriteOptions rest 0).1 false /\
    execute p w' = None.
Proof.
  intros Hdb Hx Hl. simpl. rewrite (DB_Write_unwrapped i x l) by done.
  eexists (next_loc w), _, _. split; [reflexivity|].
  unfold dispatch. simpl. rewrite lookup_insert_eq.
  split; [done|]. split; [done|]. split; [done|].
  unfold execute. simpl. rewrite bool_decide_eq_true_2.
  2:{ rewrite elem_of_app. right. by apply list_elem_of_singleton. }
  rewrite lookup_insert_eq. unfold run_execute, EIO_Write. simpl.
  by rewrite Hdb, Hl.
Qed.

End Coverage.

(** * Concrete instances of the properties above *)

Section CoverageInstances.
Import Scenario.
#[local] Existing Instances Reference.engine Reference.host.

(** Both sides of an equation between concrete values, evaluated as terms. *)
Ltac evaluate_sides :=
  match goal with
  | |- ?l = ?r =>
    let l' := eval vm_compute in l in
    let r' := eval vm_compute in r in
    change (l' = r'); exact eq_refl
  end.

Lemma after_is_reachable acts : run acts closed = Some (after acts) -> reachable (after acts).
Proof. apply run_reachable. apply reachable_initial. Qed.


(** A put on the open binding returns the binding and queues one request. *)
Lemma binding_returned_iff_dispatched_witness :
  invoke m_put [text "k"; text "v"] opened
  = ((invoke m_put [text "k"; text "v"] opened).1,
     (invoke m_put [text "k"; text "v"] opened).2) /\
  (invoke m_put [text "k"; text "v"] opened).1 = Returned JsDB /\
  exists p b,
    (next_loc opened <= p)%nat /\
    queue (invoke m_put [text "k"; text "v"] opened).2 = queue opened ++ [p] /\
    params (invoke m_put [text "k"; text "v"] opened).2 !! p = Some b /\
    status b = StOk /\
    refs (invoke m_put [text "k"; text "v"] opened).2 = S (refs opened) /\
    ev_refs (invoke m_put [text "k"; text "v"] opened).2 = S (ev_refs opened).
Proof.
  assert (H0 : invoke m_put [text "k"; text "v"] opened
               = ((invoke m_put [text "k"; text "v"] opened).1,
                  (invoke m_put [text "k"; text "v"] opened).2))
    by apply surjective_pairing.
  assert (H1 : (invoke m_put [text "k"; text "v"] opened).1 = Returned JsDB)
    by evaluate_sides.
  exact (conj H0 (conj H1
           (proj1 (binding_returned_iff_dispatched m_put [text "k"; text "v"] opened _ _ H0) H1))).
Defined.

(** put(k, v, null, f) is put(k, v): the callback is dropped. *)
Lemma non_object_argument_ends_parsing_witness :
  required m_put = Some 2 /\ length [text "k"; text "v"] = 2 /\ IsObject JsNull = false /\
  invoke m_put ([text "k"; text "v"] ++ JsNull :: [JsFun 5]) opened
  = invoke m_put [text "k"; text "v"] opened.
Proof.
  exact (conj eq_refl (conj eq_refl (conj eq_refl
           (non_object_argument_ends_parsing m_put 2 [text "k"; text "v"] JsNull [JsFun 5]
              opened eq_refl eq_refl eq_refl)))).
Defined.

(** A put without a callback completes without a word. *)
Lemma completion_without_callback_is_silent_witness :
  exists w' b,
    complete 2 put_executed_silent = Some w' /\
    params put_executed_silent !! 2 = Some b /\ callback b = None /\
    (forall q, calls_of q (trace w') = calls_of q (trace put_executed_silent)) /\
    (forall q, fatals_of q (trace w') = fatals_of q (trace put_executed_silent)) /\
    params w' !! 2 = None.
Proof.
  set (w' := default put_executed_silent (complete 2 put_executed_silent)).
  set (b := {| callback := None; status := StOk; op := PWrite 1 DefaultOpts true |}).
  assert (H1 : complete 2 put_executed_silent = Some w') by evaluate_sides.
  assert (H2 : params put_executed_silent !! 2 = Some b) by evaluate_sides.
  assert (H3 : callback b = None) by reflexivity.
  exists w', b.
  exact (conj H1 (conj H2 (conj H3
           (completion_without_callback_is_silent 2 put_executed_silent w' b H1 H2 H3)))).
Defined.

(** A get of a key that was never written: the callback gets [(null)]. *)
Lemma get_outcome_delivered_witness :
  exists b w1 w2,
    reachable get_missing_queued /\ 1 ∈ queue get_missing_queued /\
    params get_missing_queued !! 1 = Some b /\ db get_missing_queued = Some the_db /\
    execute 1 get_missing_queued = Some w1 /\ complete 1 w1 = Some w2 /\
    calls_of 1 (trace w2) = [(3, [JsNull])].
Proof.
  set (key := bytes_of (text "nokey")).
  set (b := {| callback := Some 3; status := StOk;
               op := PRead key DefaultOpts (Some [[]; key]) [] |}).
  assert (H0 : reachable get_missing_queued) by (apply after_is_reachable; evaluate_sides).
  assert (H1 : 1 ∈ queue get_missing_queued) by (vm_compute; apply list_elem_of_here).
  assert (H2 : params get_missing_queued !! 1 = Some b) by evaluate_sides.
  assert (H3 : db get_missing_queued = Some the_db) by evaluate_sides.
  destruct (get_outcome_delivered get_missing_queued 1 b key DefaultOpts _ _ the_db
              H0 H1 H2 eq_refl H3) as (w1 & w2 & He & Hc & _ & _ & Hcalls).
  assert (Hv : [(3, match ldb_Get the_db DefaultOpts key (env get_missing_queued) with
                    | inl v => [JsNull; JsStr (Utf8.decode v)]
                    | inr (c, m) => status_argv (StErr c m)
                    end)] = [(3, [JsNull])]) by evaluate_sides.
  exists b, w1, w2.
  exact (conj H0 (conj H1 (conj H2 (conj H3 (conj He (conj Hc (eq_trans Hcalls Hv))))))).
Defined.

(** A put with a callback: success is told with no argument and the batch
    of the put is gone. *)
Lemma write_outcome_delivered_witness :
  exists b wbatch w1 w2,
    reachable put_queued /\ 2 ∈ queue put_queued /\
    params put_queued !! 2 = Some b /\ op b = PWrite 1 DefaultOpts true /\
    db put_queued = Some the_db /\ batches put_queued !! 1 = Some wbatch /\
    execute 2 put_queued = Some w1 /\ complete 2 w1 = Some w2 /\
    calls_of 2 (trace w2) = [(5, [])] /\
    batches w2 = delete 1 (batches put_queued).
Proof.
  set (b := {| callback := Some 5; status := StOk; op := PWrite 1 DefaultOpts true |}).
  set (wbatch := single_put (text "k") (text "v")).
  assert (H0 : reachable put_queued) by (apply after_is_reachable; evaluate_sides).
  assert (H1 : 2 ∈ queue put_queued) by (vm_compute; apply list_elem_of_here).
  assert (H2 : params put_queued !! 2 = Some b) by evaluate_sides.
  assert (H3 : db put_queued = Some the_db) by evaluate_sides.
  assert (H4 : batches put_queued !! 1 = Some wbatch) by evaluate_sides.
  destruct (write_outcome_delivered put_queued 2 b 1 DefaultOpts true the_db wbatch
              H0 H1 H2 eq_refl H3 H4) as (w1 & w2 & He & Hc & _ & _ & Hcalls & Hbat).
  assert (Hv : [(5, status_argv (ldb_Write the_db DefaultOpts (wb wbatch) (env put_queued)).1)]
               = [(5, [])]) by evaluate_sides.
  exists b, wbatch, w1, w2.
  exact (conj H0 (conj H1 (conj H2 (conj eq_refl (conj H3 (conj H4 (conj He (conj Hc
           (conj (eq_trans Hcalls Hv) Hbat))))))))).
Defined.

(** An open of a missing database without [create_if_missing]: the
    callback gets the error and put is refused afterwards. *)
Lemma open_outcome_delivered_witness :
  exists b w1 w2,
    reachable open_missing_queued /\ 0 ∈ queue open_missing_queued /\
    params open_missing_queued !! 0 = Some b /\
    op b = POpen (bytes_of (text "nodb")) DefaultOpts /\
    execute 0 open_missing_queued = Some w1 /\ complete 0 w1 = Some w2 /\
    db w2 = None /\
    calls_of 0 (trace w2)
    = [(1, [JsExc Error "Invalid argument: does not exist (create_if_missing is false)"])] /\
    DB_Put [text "k"; text "v"] w2 = (Threw not_opened, w2).
Proof.
  set (name := bytes_of (text "nodb")).
  set (b := {| callback := Some 1; status := StOk; op := POpen name DefaultOpts |}).
  assert (H0 : reachable open_missing_queued) by (apply after_is_reachable; evaluate_sides).
  assert (H1 : 0 ∈ queue open_missing_queued) by (vm_compute; apply list_elem_of_here).
  assert (H2 : params open_missing_queued !! 0 = Some b) by evaluate_sides.
  destruct (open_outcome_delivered open_missing_queued 0 b name DefaultOpts
              H0 H1 H2 eq_refl) as (w1 & w2 & He & Hc & Hm).
  assert (Hr : (ldb_Open DefaultOpts name
                  (match db open_missing_queued with
                   | Some i => ldb_delete i (env open_missing_queued)
                   | None => env open_missing_queued
                   end)).1
               = inr (kInvalidArgument, "does not exist (create_if_missing is false)"%string))
    by evaluate_sides.
  rewrite Hr in Hm. destruct Hm as (Hdb & Hcalls & Hput).
  exists b, w1, w2.
  exact (conj H0 (conj H1 (conj H2 (conj eq_refl (conj He (conj Hc (conj Hdb
           (conj Hcalls (proj1 (Hput [text "k"; text "v"])))))))))).
Defined.

(** The newest event after the worker ran a close is its execute function. *)
Lemma worker_only_executes_witness :
  reachable close_executed /\ (Worker, EvExecute 1) ∈ trace close_executed /\
  (Worker = Worker <-> exists p, EvExecute 1 = EvExecute p).
Proof.
  assert (H0 : reachable close_executed) by (apply after_is_reachable; evaluate_sides).
  assert (H1 : (Worker, EvExecute 1) ∈ trace close_executed)
    by (vm_compute; apply list_elem_of_here).
  exact (conj H0 (conj H1 (worker_only_executes close_executed Worker (EvExecute 1) H0 H1))).
Defined.

(** After a put and a get ran to completion the callback of the get was
    called once. *)
Lemma callback_called_at_most_once_witness :
  reachable all_done /\ count (is_call 3) (trace all_done) = 1 /\
  count (is_execute 3) (trace all_done) = 1 /\
  count (is_delete 3) (trace all_done) = 1 /\
  params all_done !! 3 = None.
Proof.
  assert (H0 : reachable all_done) by (apply after_is_reachable; evaluate_sides).
  assert (H1 : count (is_call 3) (trace all_done) = 1) by evaluate_sides.
  exact (conj H0 (conj H1 (proj2 (callback_called_at_most_once all_done 3 H0) H1))).
Defined.

(** The queued put can be run and completed; its batch is there. *)
Lemma dispatched_request_runs_to_completion_witness :
  exists b w1 w2,
    reachable put_queued /\ 2 ∈ queue put_queued /\ params put_queued !! 2 = Some b /\
    op b = PWrite 1 DefaultOpts true /\
    is_Some (batches put_queued !! 1) /\
    execute 2 put_queued = Some w1 /\ complete 2 w1 = Some w2 /\
    params w2 !! 2 = None.
Proof.
  set (b := {| callback := Some 5; status := StOk; op := PWrite 1 DefaultOpts true |}).
  assert (H0 : reachable put_queued) by (apply after_is_reachable; evaluate_sides).
  assert (H1 : 2 ∈ queue put_queued) by (vm_compute; apply list_elem_of_here).
  assert (H2 : params put_queued !! 2 = Some b) by evaluate_sides.
  destruct (dispatched_request_runs_to_completion put_queued 2 b H0 H1 H2 I)
    as (Hown & w1 & w2 & He & Hc & _ & Hnone).
  exists b, w1, w2.
  exact (conj H0 (conj H1 (conj H2 (conj eq_refl
           (conj (proj1 (Hown 1 DefaultOpts eq_refl)) (conj He (conj Hc Hnone))))))).
Defined.

(** After the worker ran the close queued on the open binding. *)
Lemma newIterator_after_close_faults_witness :
  exists b w1,
    params close_queued !! 1 = Some b /\ op b = PClose /\
    execute 1 close_queued = Some w1 /\ IsObject (JsPlain []) = true /\
    db w1 = None /\
    invoke m_newIterator [JsPlain []] w1 = (Faulted, w1).
Proof.
  set (b := {| callback := Some 2; status := StOk; op := PClose |}).
  set (w1 := default close_queued (execute 1 close_queued)).
  assert (H1 : params close_queued !! 1 = Some b) by evaluate_sides.
  assert (H2 : execute 1 close_queued = Some w1) by evaluate_sides.
  destruct (newIterator_after_close_faults close_queued 1 b w1 (JsPlain []) H1 eq_refl H2 eq_refl)
    as (Hdb & Hf & _).
  exists b, w1.
  exact (conj H1 (conj eq_refl (conj H2 (conj eq_refl (conj Hdb Hf))))).
Defined.

(** After everything completed nothing is retained. *)
Lemma idle_binding_retains_nothing_witness :
  reachable all_done /\ queue all_done = [] /\ done_ all_done = [] /\
  params all_done = ∅ /\ refs all_done = 0 /\ ev_refs all_done = 0.
Proof.
  assert (H0 : reachable all_done) by (apply after_is_reachable; evaluate_sides).
  assert (H1 : queue all_done = []) by evaluate_sides.
  assert (H2 : done_ all_done = []) by evaluate_sides.
  destruct (idle_binding_retains_nothing all_done H0 H1 H2) as (Hp & Hr & He & _).
  exact (conj H0 (conj H1 (conj H2 (conj Hp (conj Hr He))))).
Defined.

(** put(k, v, null, f) registers nothing; put(k, v, {}, f) registers f. *)
Lemma registered_callback_witness :
  required m_put = Some 2 /\ length [text "k"; text "v"] = 2 /\
  accepts m_put [text "k"; text "v"] opened = true /\
  (exists p b,
     queue (invoke m_put ([text "k"; text "v"] ++ [JsNull; JsFun 5]) opened).2
     = queue opened ++ [p] /\
     params (invoke m_put ([text "k"; text "v"] ++ [JsNull; JsFun 5]) opened).2 !! p = Some b /\
     callback b = None) /\
  (exists p b,
     queue (invoke m_put ([text "k"; text "v"] ++ [JsPlain []; JsFun 5]) opened).2
     = queue opened ++ [p] /\
     params (invoke m_put ([text "k"; text "v"] ++ [JsPlain []; JsFun 5]) opened).2 !! p = Some b /\
     callback b = Some 5).
Proof.
  assert (H0 : accepts m_put [text "k"; text "v"] opened = true) by evaluate_sides.
  exact (conj eq_refl (conj eq_refl (conj H0 (conj
           (registered_callback m_put 2 [text "k"; text "v"] [JsNull; JsFun 5] opened
              eq_refl eq_refl H0)
           (registered_callback m_put 2 [text "k"; text "v"] [JsPlain []; JsFun 5] opened
              eq_refl eq_refl H0))))).
Defined.

(** open("db\0x") is open("db"). *)
Lemma open_name_stops_at_zero_witness :
  (0%N ∉ [100%N; 98%N]) /\
  invoke m_open [JsStr ([100%N; 98%N] ++ 0%N :: [120%N]); create] closed
  = invoke m_open [JsStr [100%N; 98%N]; create] closed.
Proof.
  assert (H0 : 0%N ∉ [100%N; 98%N]).
  { intros Hin. apply elem_of_cons in Hin as [Hin|Hin]; [discriminate Hin|].
    apply elem_of_cons in Hin as [Hin|Hin]; [discriminate Hin|].
    by apply elem_of_nil in Hin. }
  exact (conj H0 (open_name_stops_at_zero [100%N; 98%N] [120%N] [create] closed H0)).
Defined.

(** write(db) on the open binding is dispatched; the worker cannot run it. *)
Lemma write_does_not_check_its_batch_witness :
  db opened = Some the_db /\ Unwrap JsDB = Some 4096 /\ batches opened !! 4096 = None /\
  exists p b w',
    invoke m_write [JsDB] opened = (Returned JsDB, w') /\
    queue w' = queue opened ++ [p] /\ params w' !! p = Some b /\
    op b = PWrite 4096 DefaultOpts false /\
    execute p w' = None.
Proof.
  assert (H0 : db opened = Some the_db) by evaluate_sides.
  assert (H1 : Unwrap JsDB = Some 4096) by reflexivity.
  assert (H2 : batches opened !! 4096 = None) by evaluate_sides.
  exact (conj H0 (conj H1 (conj H2
           (write_does_not_check_its_batch JsDB 4096 [] the_db opened H0 H1 H2)))).
Defined.

End CoverageInstances.
